(** * The onboarding wizard of [OnboardingModal.jsx]

    A shallow embedding of the validation utilities, of the hook
    [useOnboardingForm] and of the modal's close handler, together with
    the properties of the wizard state machine.

    Conventions of the embedding.
    - A JavaScript string is the list of its UTF-16 code units ([list N]);
      [.length] is [length], and the whitespace removed by [trim] and
      matched by [\s] is the ECMAScript set WhiteSpace + LineTerminator.
    - [null] returned by a validator is [None]; an error object is a finite
      map from field names to [string | null], so a lookup has three
      outcomes: [None] (undefined, the key is absent), [Some None] (the key
      is present and holds null) and [Some (Some m)] (a message).
    - Field names and values are typed as the step components supply them:
      the six keys of [formData] are the only names passed to [onChange],
      the text inputs write strings, the theme cards write one of the two
      theme names and the check box writes a boolean.
    - The hook's state is passed explicitly; every handler runs against the
      state of the latest render, and a functional update [setX(prev => ..)]
      is applied to that state. *)

From Stdlib Require Import ZArith NArith List Bool Lia.
From stdpp Require Import gmap strings list fin_maps.

Local Open Scope Z_scope.

(** ** JavaScript strings *)

Module Js.

(** The code units of an ASCII literal of the source. *)
Definition lit (s : string) : list N :=
  List.map Ascii.N_of_ascii (String.list_ascii_of_string s).

(** WhiteSpace and LineTerminator code points: TAB, LF, VT, FF, CR, SP,
    NBSP, U+1680, U+2000..U+200A, U+2028, U+2029, U+202F, U+205F, U+3000
    and U+FEFF. *)
Definition isWhiteSpace (c : N) : bool :=
  ((9 <=? c) && (c <=? 13) || (c =? 32) || (c =? 160) || (c =? 5760)
   || (8192 <=? c) && (c <=? 8202) || (c =? 8232) || (c =? 8233)
   || (c =? 8239) || (c =? 8287) || (c =? 12288) || (c =? 65279))%N.

Fixpoint trimStart (s : list N) : list N :=
  match s with
  | c :: s' => if isWhiteSpace c then trimStart s' else s
  | [] => []
  end.

Definition trimEnd (s : list N) : list N := rev (trimStart (rev s)).

(** [String.prototype.trim]. *)
Definition trim (s : list N) : list N := trimEnd (trimStart s).

(** ToBoolean on a string: only the empty string is falsy. *)
Definition truthy (s : list N) : bool :=
  match s with [] => false | _ :: _ => true end.

End Js.

(** ** Regular expressions

    The fragment of the regular expression syntax that the two literals of
    the source use, with a matcher by derivatives. Both literals are
    anchored at [^] and [$] and carry no flag, so [test] succeeds exactly
    when the whole input is in the language of the body. *)

Module Regex.

Inductive regex : Type :=
| Void
| Eps
| Class (p : N -> bool)
| Cat (r1 r2 : regex)
| Alt (r1 r2 : regex)
| Star (r : regex).

(** [r+] *)
Definition Plus (r : regex) : regex := Cat r (Star r).

(** A literal character. *)
Definition Chr (c : N) : regex := Class (N.eqb c).

Fixpoint nullable (r : regex) : bool :=
  match r with
  | Void => false
  | Eps => true
  | Class _ => false
  | Cat r1 r2 => nullable r1 && nullable r2
  | Alt r1 r2 => nullable r1 || nullable r2
  | Star _ => true
  end.

Fixpoint deriv (c : N) (r : regex) : regex :=
  match r with
  | Void => Void
  | Eps => Void
  | Class p => if p c then Eps else Void
  | Cat r1 r2 =>
      if nullable r1
      then Alt (Cat (deriv c r1) r2) (deriv c r2)
      else Cat (deriv c r1) r2
  | Alt r1 r2 => Alt (deriv c r1) (deriv c r2)
  | Star r1 => Cat (deriv c r1) (Star r1)
  end.

(** [/^r$/.test(s)] *)
Fixpoint test (r : regex) (s : list N) : bool :=
  match s with
  | [] => nullable r
  | c :: s' => test (deriv c r) s'
  end.

(** The language of a regular expression. *)
Inductive lang : regex -> list N -> Prop :=
| lang_eps : lang Eps []
| lang_class p c : p c = true -> lang (Class p) [c]
| lang_cat r1 r2 s1 s2 :
    lang r1 s1 -> lang r2 s2 -> lang (Cat r1 r2) (s1 ++ s2)
| lang_alt_l r1 r2 s : lang r1 s -> lang (Alt r1 r2) s
| lang_alt_r r1 r2 s : lang r2 s -> lang (Alt r1 r2) s
| lang_star_nil r : lang (Star r) []
| lang_star_app r s1 s2 :
    lang r s1 -> lang (Star r) s2 -> lang (Star r) (s1 ++ s2).

End Regex.

(** ** Validation utilities (the object [validation]) *)

Module validation.

Import Js Regex.

(** [[^\s@]] *)
Definition notSpaceAt (c : N) : bool := negb (isWhiteSpace c || (c =? 64)%N).

(** [/^[^\s@]+@[^\s@]+\.[^\s@]+$/] *)
Definition emailRegex : regex :=
  Cat (Plus (Class notSpaceAt))
    (Cat (Chr 64)
       (Cat (Plus (Class notSpaceAt))
          (Cat (Chr 46) (Plus (Class notSpaceAt))))).

(** [[a-zA-Z0-9_]] *)
Definition wordChar (c : N) : bool :=
  ((97 <=? c) && (c <=? 122) || (65 <=? c) && (c <=? 90)
   || (48 <=? c) && (c <=? 57) || (c =? 95))%N.

(** [/^[a-zA-Z0-9_]+$/] *)
Definition usernameRegex : regex := Plus (Class wordChar).

Definition validateEmail (email : list N) : option string :=
  if negb (truthy (trim email)) then Some "Email is required"%string
  else if test emailRegex email then None
  else Some "Please enter a valid email address"%string.

Definition validateFullName (name : list N) : option string :=
  if negb (truthy (trim name)) then Some "Full name is required"%string
  else if (Z.of_nat (length (trim name)) <? 2)
  then Some "Name must be at least 2 characters"%string
  else None.

Definition validateUsername (username : list N) : option string :=
  if negb (truthy (trim username)) then Some "Username is required"%string
  else if (Z.of_nat (length username) <? 3)
  then Some "Username must be at least 3 characters"%string
  else if negb (test usernameRegex username)
  then Some "Username can only contain letters, numbers, and underscores"%string
  else None.

Definition validatePassword (password : list N) : option string :=
  if negb (truthy (trim password)) then Some "Password is required"%string
  else if (Z.of_nat (length password) <? 6)
  then Some "Password must be at least 6 characters"%string
  else None.

(** [theme] is a string here; [!theme] holds for the empty string only. *)
Definition validateTheme (theme : list N) : option string :=
  if negb (truthy theme) then Some "Please select a theme"%string
  else None.

End validation.

(** ** The state of the hook [useOnboardingForm] *)

(** The theme cards offer 'Light' and 'Dark'; the initial state and
    [resetForm] hold the empty string. *)
Inductive Theme : Type := NoTheme | Light | Dark.

#[global] Instance Theme_eq_dec : EqDecision Theme.
Proof. solve_decision. Defined.

Definition theme_value (t : Theme) : list N :=
  match t with
  | NoTheme => []
  | Light => Js.lit "Light"
  | Dark => Js.lit "Dark"
  end.

(** The object [formData]. *)
Record FormData : Type := mkFormData {
  fullName : list N;
  email : list N;
  username : list N;
  password : list N;
  theme : Theme;
  newsletter : bool
}.

(** The keys of [formData], which are also the keys of [errors]; these are
    the names the step components pass to [onChange]. *)
Inductive Field : Type :=
| fld_fullName | fld_email | fld_username | fld_password
| fld_theme | fld_newsletter.

#[global] Instance Field_eq_dec : EqDecision Field.
Proof. solve_decision. Defined.

Definition Field_to_nat (f : Field) : nat :=
  match f with
  | fld_fullName => 0 | fld_email => 1 | fld_username => 2
  | fld_password => 3 | fld_theme => 4 | fld_newsletter => 5
  end%nat.

Definition Field_of_nat (n : nat) : Field :=
  match n with
  | 0 => fld_fullName | 1 => fld_email | 2 => fld_username
  | 3 => fld_password | 4 => fld_theme | _ => fld_newsletter
  end%nat.

#[global] Instance Field_countable : Countable Field.
Proof.
  apply (inj_countable' Field_to_nat Field_of_nat).
  intros []; reflexivity.
Defined.

(** The type of the value each input writes: [e.target.value] for the text
    inputs, [theme.value] for the theme cards, [e.target.checked] for the
    check box. *)
Definition field_type (f : Field) : Type :=
  match f with
  | fld_theme => Theme
  | fld_newsletter => bool
  | _ => list N
  end.

(** [formData[field]] *)
Definition get_field (f : Field) (d : FormData) : field_type f :=
  match f with
  | fld_fullName => fullName d
  | fld_email => email d
  | fld_username => username d
  | fld_password => password d
  | fld_theme => theme d
  | fld_newsletter => newsletter d
  end.

(** [{ ...prev, [field]: value }] *)
Definition set_field (f : Field) : field_type f -> FormData -> FormData :=
  match f with
  | fld_fullName => fun v d =>
      mkFormData v (email d) (username d) (password d) (theme d) (newsletter d)
  | fld_email => fun v d =>
      mkFormData (fullName d) v (username d) (password d) (theme d) (newsletter d)
  | fld_username => fun v d =>
      mkFormData (fullName d) (email d) v (password d) (theme d) (newsletter d)
  | fld_password => fun v d =>
      mkFormData (fullName d) (email d) (username d) v (theme d) (newsletter d)
  | fld_theme => fun v d =>
      mkFormData (fullName d) (email d) (username d) (password d) v (newsletter d)
  | fld_newsletter => fun v d =>
      mkFormData (fullName d) (email d) (username d) (password d) (theme d) v
  end.

(** The four [useState] cells of the hook. [isSubmitting] is the submission
    status: [false] is Idle, [true] is Submitting. *)
Record Hook : Type := mkHook {
  formData : FormData;
  errors : gmap Field (option string);
  currentStep : Z;
  isSubmitting : bool
}.

Definition setFormData (d : FormData) (st : Hook) : Hook :=
  mkHook d (errors st) (currentStep st) (isSubmitting st).

Definition setErrors (e : gmap Field (option string)) (st : Hook) : Hook :=
  mkHook (formData st) e (currentStep st) (isSubmitting st).

Definition setCurrentStep (n : Z) (st : Hook) : Hook :=
  mkHook (formData st) (errors st) n (isSubmitting st).

Definition setIsSubmitting (b : bool) (st : Hook) : Hook :=
  mkHook (formData st) (errors st) (currentStep st) b.

Definition initialFormData : FormData :=
  mkFormData [] [] [] [] NoTheme false.

(** The arguments of the four [useState] calls. *)
Definition initialHook : Hook := mkHook initialFormData ∅ 1 false.

(** ToBoolean on [errors[field]]: undefined, null and the empty string are
    falsy. *)
Definition error_truthy (e : option (option string)) : bool :=
  match e with
  | Some (Some (String _ _)) => true
  | _ => false
  end.

(** ** The handlers of the hook *)

Definition updateField (field : Field) (value : field_type field) (st : Hook) : Hook :=
  let st1 := setFormData (set_field field value (formData st)) st in
  if error_truthy (errors st !! field)
  then setErrors (<[field := None]> (errors st1)) st1
  else st1.

(** The object [newErrors] at the end of the [switch]. *)
Definition newErrors (step : Z) (d : FormData) : gmap Field (option string) :=
  match step with
  | 1 => <[fld_email := validation.validateEmail (email d)]>
           (<[fld_fullName := validation.validateFullName (fullName d)]> ∅)
  | 2 => <[fld_password := validation.validatePassword (password d)]>
           (<[fld_username := validation.validateUsername (username d)]> ∅)
  | 3 => <[fld_theme := validation.validateTheme (theme_value (theme d))]> ∅
  | _ => ∅
  end.

(** [Object.fromEntries(Object.entries(newErrors).filter(([, error]) => error !== null))] *)
Definition filterErrors (m : gmap Field (option string)) : gmap Field (option string) :=
  filter (fun kv : Field * option string => kv.2 ≠ None) m.

Definition validateStep (step : Z) (st : Hook) : Hook * bool :=
  let filteredErrors := filterErrors (newErrors step (formData st)) in
  (setErrors filteredErrors st, Nat.eqb (size filteredErrors) 0).

Definition goToNextStep (st : Hook) : Hook :=
  let (st1, ok) := validateStep (currentStep st) st in
  if ok then setCurrentStep (Z.min (currentStep st1 + 1) 3) st1 else st1.

Definition goToPreviousStep (st : Hook) : Hook :=
  setErrors ∅ (setCurrentStep (Z.max (currentStep st - 1) 1) st).

Definition resetForm (st : Hook) : Hook :=
  setIsSubmitting false
    (setCurrentStep 1
       (setErrors ∅
          (setFormData
             (mkFormData [] [] [] [] NoTheme false) st))).

(** *** Submission

    [submitForm] is the only asynchronous handler. Its body runs up to the
    [await], is suspended while the awaited promise is pending, and resumes
    when the promise settles. The promise of the source is a two second
    timer that always fulfils; the handler nevertheless has a [catch]
    branch, so the way the promise settles is an argument here. *)

Inductive settled : Type := Fulfilled | Rejected.

(** What the handler does to the outside, in order. *)
Inductive event : Type :=
| EvSetIsSubmitting (b : bool)
| EvAwait
| EvConsoleError.

(** The synchronous part: the state it leaves, whether the handler reached
    the [await] ([false] when it returned [false] before), and the events
    so far. *)
Definition submit_start (st : Hook) : Hook * bool * list event :=
  let (st1, ok) := validateStep 3 st in
  if negb ok then (st1, false, [])
  else (setIsSubmitting true st1, true, [EvSetIsSubmitting true; EvAwait]).

(** The part after the [await]: [try] falls through to [return true],
    [catch] logs and returns [false], [finally] runs in both cases. *)
Definition submit_resume (o : settled) (st : Hook) : Hook * bool * list event :=
  match o with
  | Fulfilled => (setIsSubmitting false st, true, [EvSetIsSubmitting false])
  | Rejected =>
      (setIsSubmitting false st, false, [EvConsoleError; EvSetIsSubmitting false])
  end.

(** [submitForm] with nothing else running while the promise is pending:
    the final state, the returned value and the events in order. *)
Definition submitForm (o : settled) (st : Hook) : Hook * bool * list event :=
  match submit_start st with
  | (st1, false, tr) => (st1, false, tr)
  | (st1, true, tr) =>
      let '(st2, r, tr') := submit_resume o st1 in (st2, r, tr ++ tr')
  end.

Definition is_await (e : event) : bool :=
  match e with EvAwait => true | _ => false end.

(** ** The modal component *)

(** A value of [formData], as [Object.values] lists it. *)
Inductive jsval : Type :=
| VStr (s : list N)
| VBool (b : bool).

Definition Object_values (d : FormData) : list jsval :=
  [VStr (fullName d); VStr (email d); VStr (username d); VStr (password d);
   VStr (theme_value (theme d)); VBool (newsletter d)].

(** [Object.values(formData).some(value =>
      typeof value === 'string' ? value.trim() : value)] *)
Definition hasData (d : FormData) : bool :=
  existsb (fun value =>
             match value with
             | VStr s => Js.truthy (Js.trim s)
             | VBool b => b
             end) (Object_values d).

(** The state of [OnboardingModal]: the cell [isOpen] and the hook. *)
Record Modal : Type := mkModal {
  isOpen : bool;
  form : Hook
}.

(** [confirm] stands for [window.confirm]. *)
Definition handleCloseModal (confirm : string -> bool) (m : Modal) : Modal :=
  if hasData (formData (form m)) && negb (confirm "Close and lose progress?"%string)
  then m
  else mkModal false (resetForm (form m)).

(** ** Vocabulary of the specification *)

(** The validator of a field, applied to the stored value; the check box
    has none. *)
Definition validate_field (f : Field) (d : FormData) : option string :=
  match f with
  | fld_fullName => validation.validateFullName (fullName d)
  | fld_email => validation.validateEmail (email d)
  | fld_username => validation.validateUsername (username d)
  | fld_password => validation.validatePassword (password d)
  | fld_theme => validation.validateTheme (theme_value (theme d))
  | fld_newsletter => None
  end.

(** The fields a step owns. *)
Definition step_fields (step : Z) : list Field :=
  match step with
  | 1 => [fld_fullName; fld_email]
  | 2 => [fld_username; fld_password]
  | 3 => [fld_theme]
  | _ => []
  end.

(** The messages of the failing validators of a step, as a lookup: a field
    has an entry when the step owns it and its validator fails. *)
Definition step_failures (step : Z) (d : FormData) (f : Field) : option (option string) :=
  if bool_decide (f ∈ step_fields step)
  then match validate_field f d with
       | Some m => Some (Some m)
       | None => None
       end
  else None.

(** One or more characters that are neither whitespace nor [@]. *)
Definition local_part (s : list N) : Prop :=
  s ≠ [] ∧ Forall (fun c => Js.isWhiteSpace c = false ∧ c ≠ 64%N) s.

(** The shape of an accepted address: a part, [@], a part, [.], a part. *)
Definition email_shape (s : list N) : Prop :=
  ∃ a b c : list N,
    s = a ++ 64%N :: b ++ 46%N :: c ∧ local_part a ∧ local_part b ∧ local_part c.

(** The operations of the wizard. [OpSubmit] is a submission that nothing
    interrupts; [OpSubmitStart] and [OpSubmitResume] are its two halves, for
    the runs in which other operations happen while the promise is pending. *)
Inductive op : Type :=
| OpUpdateField (f : Field) (v : field_type f)
| OpValidateStep (step : Z)
| OpGoToNextStep
| OpGoToPreviousStep
| OpSubmit (o : settled)
| OpSubmitStart
| OpSubmitResume (o : settled)
| OpResetForm.

Definition run_op (st : Hook) (o : op) : Hook :=
  match o with
  | OpUpdateField f v => updateField f v st
  | OpValidateStep step => (validateStep step st).1
  | OpGoToNextStep => goToNextStep st
  | OpGoToPreviousStep => goToPreviousStep st
  | OpSubmit o => (submitForm o st).1.1
  | OpSubmitStart => (submit_start st).1.1
  | OpSubmitResume o => (submit_resume o st).1.1
  | OpResetForm => resetForm st
  end.

(** The states that some sequence of operations reaches from the initial
    one. *)
Definition reachable (st : Hook) : Prop :=
  ∃ ops : list op, st = fold_left run_op ops initialHook.

(** Every message in the error object is the current answer of the field's
    validator. *)
Definition messages_current (st : Hook) : Prop :=
  ∀ f m, errors st !! f = Some (Some m) → validate_field f (formData st) = Some m.

(** Dirty, in the words of the specification: some text field is non-empty
    after trimming, or the newsletter box is ticked, or a theme is chosen. *)
Definition dirty (d : FormData) : Prop :=
  Js.trim (fullName d) ≠ [] ∨ Js.trim (email d) ≠ []
  ∨ Js.trim (username d) ≠ [] ∨ Js.trim (password d) ≠ []
  ∨ newsletter d = true ∨ theme d ≠ NoTheme.

#[global] Instance dirty_dec (d : FormData) : Decision (dirty d).
Proof. unfold dirty. apply _. Defined.

(** ** Sample states *)

(** A state with a stale error of step 3 and invalid fields of step 1. *)
Definition sample_invalid : Hook :=
  mkHook (mkFormData (Js.lit "J") (Js.lit "jo@x") [] [] NoTheme false)
    {[ fld_theme := Some "Please select a theme"%string ]} 1 false.

(** A state with no error recorded, at a given step. *)
Definition at_step (n : Z) (d : FormData) : Hook := mkHook d ∅ n false.

(** Valid entries for every step. *)
Definition sample_valid : FormData :=
  mkFormData (Js.lit "Jo") (Js.lit "jo@x.com") (Js.lit "jo_1") (Js.lit "123456")
    Dark false.

(** The initial state after a failed attempt to leave step 1. *)
Definition sample_step1_failed : Hook := goToNextStep initialHook.

(** The same, after the user then typed a name. *)
Definition sample_name_typed : Hook :=
  updateField fld_fullName (Js.lit "Jo") sample_step1_failed.

(** ** The rest of [OnboardingModal] *)

(** The step components. *)
Inductive StepComponent : Type :=
| PersonalInfoStep | AccountSetupStep | PreferencesStep.

(** An entry of the array [steps]. *)
Record StepConfig : Type := mkStep {
  number : Z;
  title : string;
  component : StepComponent
}.

Definition steps : list StepConfig :=
  [mkStep 1 "Personal Info" PersonalInfoStep;
   mkStep 2 "Account Setup" AccountSetupStep;
   mkStep 3 "Preferences" PreferencesStep].

(** [steps[i]]: [None] is undefined, the answer for an index outside the
    array. *)
Definition steps_at (i : Z) : option StepConfig :=
  if i <? 0 then None else steps !! Z.to_nat i.

(** [steps[currentStep - 1].component]: [None] stands for the TypeError of
    reading [component] of undefined, which aborts the render. *)
Definition CurrentStepComponent (st : Hook) : option StepComponent :=
  component <$> steps_at (currentStep st - 1).

(** The names a step component passes to [onChange]. *)
Definition component_fields (c : StepComponent) : list Field :=
  match c with
  | PersonalInfoStep => [fld_fullName; fld_email]
  | AccountSetupStep => [fld_username; fld_password]
  | PreferencesStep => [fld_theme; fld_newsletter]
  end.

(** The values an input can write: [themeOptions] has no entry with an
    empty value, the other inputs write any value of their type. *)
Definition input_value (f : Field) : field_type f -> bool :=
  match f with
  | fld_theme => fun v => match v with NoTheme => false | _ => true end
  | _ => fun _ => true
  end.

Definition handleOpenModal (m : Modal) : Modal :=
  mkModal true (resetForm (form m)).

(** The two calls of [alert] in [handleSubmit]. *)
Inductive alert : Type := AlertWelcome | AlertWentWrong.

(** [handleSubmit] from the point where [success] is known. *)
Definition handleSubmit_after (success : bool) (m : Modal) : Modal * list alert :=
  if success then (mkModal false (resetForm (form m)), [AlertWelcome])
  else (m, [AlertWentWrong]).

(** [handleSubmit] up to the [await] inside [submitForm]; when validation
    fails there is no [await] and the handler runs to its end. The boolean
    tells whether the handler is suspended. *)
Definition handleSubmit_start (m : Modal) : Modal * bool * list alert :=
  let '(st1, awaiting, _) := submit_start (form m) in
  if awaiting then (mkModal (isOpen m) st1, true, [])
  else let (m', al) := handleSubmit_after false (mkModal (isOpen m) st1) in
       (m', false, al).

(** [handleSubmit] from the moment the promise settles. *)
Definition handleSubmit_settle (o : settled) (m : Modal) : Modal * list alert :=
  let '(st2, success, _) := submit_resume o (form m) in
  handleSubmit_after success (mkModal (isOpen m) st2).

(** [handleSubmit] with nothing else running while the promise is pending. *)
Definition handleSubmit (o : settled) (m : Modal) : Modal * list alert :=
  let '(st', success, _) := submitForm o (form m) in
  handleSubmit_after success (mkModal (isOpen m) st').

(** [e.key], as far as [handleKeyDown] tells keys apart. *)
Inductive key : Type := Escape | ArrowRight | ArrowLeft | OtherKey.

(** [inInput] tells whether [e.target] is an INPUT or a TEXTAREA. *)
Definition handleKeyDown (confirm : string -> bool) (k : key) (inInput : bool)
    (m : Modal) : Modal :=
  if negb (isOpen m) then m
  else
    let m1 := match k with Escape => handleCloseModal confirm m | _ => m end in
    if negb inInput then
      match k with
      | ArrowRight =>
          if currentStep (form m) <? 3
          then mkModal (isOpen m1) (goToNextStep (form m1)) else m1
      | ArrowLeft =>
          if currentStep (form m) >? 1
          then mkModal (isOpen m1) (goToPreviousStep (form m1)) else m1
      | _ => m1
      end
    else m1.

(** *** What the user can do

    The events the rendered page offers, each with the condition under which
    its control is rendered and enabled. [UiSettle] is the settlement of the
    promise of a submission; it is offered in every state, which covers every
    moment at which a pending promise can settle. *)
Inductive ui_event : Type :=
| UiTrigger
| UiCloseButton (answer : bool)
| UiKey (k : key) (inInput : bool) (answer : bool)
| UiInput (f : Field) (v : field_type f)
| UiBack
| UiNext
| UiSubmit
| UiSettle (o : settled).

Definition ui_step (m : Modal) (e : ui_event) : option Modal :=
  match e with
  | UiTrigger => Some (handleOpenModal m)
  | UiCloseButton answer =>
      if isOpen m then Some (handleCloseModal (fun _ => answer) m) else None
  | UiKey k inInput answer =>
      Some (handleKeyDown (fun _ => answer) k inInput m)
  | UiInput f v =>
      match CurrentStepComponent (form m) with
      | Some c =>
          if isOpen m && bool_decide (f ∈ component_fields c) && input_value f v
          then Some (mkModal (isOpen m) (updateField f v (form m)))
          else None
      | None => None
      end
  | UiBack =>
      if isOpen m && negb (currentStep (form m) =? 1)
      then Some (mkModal (isOpen m) (goToPreviousStep (form m))) else None
  | UiNext =>
      if isOpen m && (currentStep (form m) <? Z.of_nat (length steps))
      then Some (mkModal (isOpen m) (goToNextStep (form m))) else None
  | UiSubmit =>
      if isOpen m && negb (currentStep (form m) <? Z.of_nat (length steps))
         && negb (isSubmitting (form m))
      then Some (handleSubmit_start m).1.1 else None
  | UiSettle o => Some (handleSubmit_settle o m).1
  end.

Fixpoint ui_run (evs : list ui_event) (m : Modal) : option Modal :=
  match evs with
  | [] => Some m
  | e :: evs' =>
      match ui_step m e with
      | Some m' => ui_run evs' m'
      | None => None
      end
  end.

(** [useState(false)] for [isOpen], and the initial state of the hook. *)
Definition initialModal : Modal := mkModal false initialHook.

(** The states the user can bring the page into. *)
Definition ui_reachable (m : Modal) : Prop :=
  ∃ evs : list ui_event, ui_run evs initialModal = Some m.

(** The fields validated on the way to the current step pass their
    validators. *)
Definition earlier_steps_valid (st : Hook) : Prop :=
  ∀ step f, 1 <= step < currentStep st → f ∈ step_fields step →
            validate_field f (formData st) = None.

(** Every key of the error object belongs to the given step. *)
Definition errors_on_step (step : Z) (st : Hook) : Prop :=
  ∀ f, is_Some (errors st !! f) → f ∈ step_fields step.

(** What every state of the page satisfies. *)
Definition ui_invariant (m : Modal) : Prop :=
  1 <= currentStep (form m) <= 3
  ∧ earlier_steps_valid (form m)
  ∧ errors_on_step (currentStep (form m)) (form m)
  ∧ (isOpen m = false → form m = initialHook).

(** The user opens the modal, fills in step 1 and step 2 and arrives at
    step 3. *)
Definition sample_session : list ui_event :=
  [UiTrigger;
   UiInput fld_fullName (Js.lit "Jo"); UiInput fld_email (Js.lit "jo@x.com");
   UiNext;
   UiInput fld_username (Js.lit "jo_1"); UiInput fld_password (Js.lit "123456");
   UiKey ArrowRight false false].

Definition sample_at_step3 : Modal :=
  mkModal true
    (at_step 3
       (mkFormData (Js.lit "Jo") (Js.lit "jo@x.com") (Js.lit "jo_1")
          (Js.lit "123456") NoTheme false)).

(** The same session, with a theme picked: the form is ready to submit. *)
Definition sample_ready : Modal := mkModal true (at_step 3 sample_valid).

(** A session that ends with the modal closed: some text typed, then the
    close button with the confirmation accepted. *)
Definition sample_closing_session : list ui_event :=
  [UiTrigger; UiInput fld_fullName (Js.lit "Jo"); UiNext; UiCloseButton true].

(** * Properties *)

(** ** The matcher decides the language *)

Module RegexFacts.

Import Regex.

Lemma lang_cat_inv r1 r2 s :
  lang (Cat r1 r2) s ↔ ∃ s1 s2, s = s1 ++ s2 ∧ lang r1 s1 ∧ lang r2 s2.
Proof.
  split.
  - inversion 1; subst; eauto.
  - intros (s1 & s2 & -> & H1 & H2). by constructor.
Qed.

Lemma lang_alt_inv r1 r2 s : lang (Alt r1 r2) s ↔ lang r1 s ∨ lang r2 s.
Proof.
  split.
  - inversion 1; subst; auto.
  - intros [H | H]; [by apply lang_alt_l | by apply lang_alt_r].
Qed.

Lemma lang_class_inv p s : lang (Class p) s ↔ ∃ c, s = [c] ∧ p c = true.
Proof.
  split.
  - inversion 1; subst; eauto.
  - intros (c & -> & H). by constructor.
Qed.

Lemma nullable_lang r : nullable r = true ↔ lang r [].
Proof.
  induction r as [| | p | r1 IH1 r2 IH2 | r1 IH1 r2 IH2 | r IH]; simpl.
  - split; [discriminate | inversion 1].
  - split; [constructor | done].
  - split; [discriminate | inversion 1].
  - rewrite andb_true_iff, IH1, IH2, lang_cat_inv. split.
    + intros [H1 H2]. by exists [], [].
    + intros (s1 & s2 & Heq & H1 & H2).
      symmetry in Heq. apply app_eq_nil in Heq as [-> ->]. done.
  - by rewrite orb_true_iff, IH1, IH2, lang_alt_inv.
  - split; [constructor | done].
Qed.

(** A non-empty word of [r*] starts with a non-empty word of [r]. *)
Lemma lang_star_cons r c s :
  lang (Star r) (c :: s) →
  ∃ s1 s2, s = s1 ++ s2 ∧ lang r (c :: s1) ∧ lang (Star r) s2.
Proof.
  intros H. remember (Star r) as r' eqn:Er. remember (c :: s) as w eqn:Ew.
  induction H as [| | | | | |r0 s1 s2 H1 _ H2 IH2]; try discriminate.
  injection Er as ->. destruct s1 as [|c1 s1]; simpl in Ew.
  - by apply IH2.
  - injection Ew as -> <-. eauto.
Qed.

Lemma deriv_lang c r s : lang (deriv c r) s ↔ lang r (c :: s).
Proof.
  revert s.
  induction r as [| | p | r1 IH1 r2 IH2 | r1 IH1 r2 IH2 | r IH]; intros s; simpl.
  - split; inversion 1.
  - split; inversion 1.
  - rewrite lang_class_inv. destruct (p c) eqn:Hp.
    + split.
      * inversion 1; subst. eauto.
      * intros (c' & [= -> ->] & _). constructor.
    + split; [inversion 1|].
      intros (c' & [= -> ->] & Hp'). congruence.
  - assert (Hcat : lang (Cat (deriv c r1) r2) s
                   ↔ ∃ s1 s2, s = s1 ++ s2 ∧ lang r1 (c :: s1) ∧ lang r2 s2).
    { rewrite lang_cat_inv. by setoid_rewrite IH1. }
    destruct (nullable r1) eqn:Hn.
    + rewrite lang_alt_inv, Hcat, IH2, lang_cat_inv. split.
      * intros [(s1 & s2 & -> & H1 & H2) | H2].
        -- by exists (c :: s1), s2.
        -- exists [], (c :: s). by rewrite <- nullable_lang.
      * intros (s1 & s2 & Heq & H1 & H2). destruct s1 as [|c1 s1]; simpl in Heq.
        -- right. by subst.
        -- left. injection Heq as <- ->. eauto.
    + rewrite Hcat, lang_cat_inv. split.
      * intros (s1 & s2 & -> & H1 & H2). by exists (c :: s1), s2.
      * intros (s1 & s2 & Heq & H1 & H2). destruct s1 as [|c1 s1]; simpl in Heq.
        -- apply nullable_lang in H1. congruence.
        -- injection Heq as <- ->. eauto.
  - by rewrite !lang_alt_inv, IH1, IH2.
  - rewrite lang_cat_inv. setoid_rewrite IH. split.
    + intros (s1 & s2 & -> & H1 & H2). by apply (lang_star_app r (c :: s1) s2).
    + apply lang_star_cons.
Qed.

Lemma test_lang r s : test r s = true ↔ lang r s.
Proof.
  revert r. induction s as [|c s IH]; intros r; simpl.
  - apply nullable_lang.
  - by rewrite IH, deriv_lang.
Qed.

Lemma lang_star_class p s :
  lang (Star (Class p)) s ↔ Forall (fun c => p c = true) s.
Proof.
  split.
  - intros H. remember (Star (Class p)) as r eqn:Er.
    induction H as [| | | | | |r0 s1 s2 H1 _ H2 IH2]; try discriminate.
    + constructor.
    + injection Er as ->. apply lang_class_inv in H1 as (c & -> & Hc).
      constructor; auto.
  - induction 1 as [|c s Hc _ IH]; [constructor|].
    apply (lang_star_app _ [c] s); [by constructor | done].
Qed.

Lemma lang_plus_class p s :
  lang (Plus (Class p)) s ↔ s ≠ [] ∧ Forall (fun c => p c = true) s.
Proof.
  unfold Plus. rewrite lang_cat_inv. split.
  - intros (s1 & s2 & -> & H1 & H2).
    apply lang_class_inv in H1 as (c & -> & Hc).
    apply lang_star_class in H2. split; [done | by constructor].
  - intros [Hne H]. destruct H as [|c s Hc H]; [done|].
    exists [c], s. rewrite lang_class_inv, lang_star_class. eauto.
Qed.

Lemma lang_chr c s : lang (Chr c) s ↔ s = [c].
Proof.
  unfold Chr. rewrite lang_class_inv. split.
  - intros (c' & -> & Hc). apply N.eqb_eq in Hc. by subst.
  - intros ->. exists c. by rewrite N.eqb_refl.
Qed.

End RegexFacts.

(** ** Facts about [trim] and the validators *)

Lemma trimStart_nil_iff (s : list N) :
  Js.trimStart s = [] ↔ Forall (fun c => Js.isWhiteSpace c = true) s.
Proof.
  induction s as [|c s IH]; simpl.
  - split; [constructor | done].
  - destruct (Js.isWhiteSpace c) eqn:Hc.
    + rewrite IH. split; [by constructor | by inversion 1].
    + split; [done | inversion 1; congruence].
Qed.

(** The trimmed value is empty exactly when every character is whitespace. *)
Lemma trim_nil_iff (s : list N) :
  Js.trim s = [] ↔ Forall (fun c => Js.isWhiteSpace c = true) s.
Proof.
  unfold Js.trim, Js.trimEnd. split.
  - intros H. apply (f_equal (@rev N)) in H. rewrite rev_involutive in H.
    simpl in H. apply trimStart_nil_iff in H.
    apply Forall_rev in H. rewrite rev_involutive in H.
    revert H. clear. induction s as [|c s IH]; simpl; [constructor|].
    destruct (Js.isWhiteSpace c) eqn:Hc; [|done].
    intros H. constructor; auto.
  - intros H. apply trimStart_nil_iff in H. by rewrite H.
Qed.

Lemma notSpaceAt_true (c : N) :
  validation.notSpaceAt c = true ↔ Js.isWhiteSpace c = false ∧ c ≠ 64%N.
Proof.
  unfold validation.notSpaceAt.
  rewrite negb_true_iff, orb_false_iff, N.eqb_neq. done.
Qed.

Lemma lang_local_part (s : list N) :
  Regex.lang (Regex.Plus (Regex.Class validation.notSpaceAt)) s ↔ local_part s.
Proof.
  rewrite RegexFacts.lang_plus_class. unfold local_part.
  rewrite !Forall_forall. by setoid_rewrite notSpaceAt_true.
Qed.

(** The regular expression of [validateEmail] accepts the addresses of the
    shape [email_shape]. *)
Lemma emailRegex_shape (s : list N) :
  Regex.test validation.emailRegex s = true ↔ email_shape s.
Proof.
  rewrite RegexFacts.test_lang. unfold validation.emailRegex, email_shape.
  rewrite RegexFacts.lang_cat_inv. split.
  - intros (a & s1 & -> & Ha & H1).
    apply RegexFacts.lang_cat_inv in H1 as (x & s2 & -> & Hx & H2).
    apply RegexFacts.lang_chr in Hx as ->.
    apply RegexFacts.lang_cat_inv in H2 as (b & s3 & -> & Hb & H3).
    apply RegexFacts.lang_cat_inv in H3 as (y & c & -> & Hy & Hc).
    apply RegexFacts.lang_chr in Hy as ->.
    exists a, b, c. by rewrite <- !lang_local_part.
  - intros (a & b & c & -> & Ha & Hb & Hc).
    exists a, (64%N :: b ++ 46%N :: c). split; [done|].
    split; [by apply lang_local_part|].
    apply (Regex.lang_cat _ _ [64%N] (b ++ 46%N :: c));
      [by apply RegexFacts.lang_chr|].
    apply Regex.lang_cat; [by apply lang_local_part|].
    apply (Regex.lang_cat _ _ [46%N] c);
      [by apply RegexFacts.lang_chr | by apply lang_local_part].
Qed.

(** A validator never returns the empty message. *)
Lemma validate_field_message (f : Field) (d : FormData) (m : string) :
  validate_field f d = Some m → m ≠ EmptyString.
Proof.
  destruct f; simpl;
    unfold validation.validateFullName, validation.validateEmail,
      validation.validateUsername, validation.validatePassword,
      validation.validateTheme;
    repeat case_match; intros [= <-]; done.
Qed.

(** ** Facts about [validateStep] *)

Lemma filterErrors_lookup (m : gmap Field (option string)) (f : Field) :
  filterErrors m !! f
  = match m !! f with Some (Some x) => Some (Some x) | _ => None end.
Proof.
  unfold filterErrors. apply option_eq. intros y.
  rewrite map_lookup_filter_Some.
  destruct (m !! f) as [[x|]|]; simpl; split.
  - by intros [H _].
  - intros [= <-]. by split.
  - intros [[= <-] H]. by destruct H.
  - discriminate.
  - by intros [H _].
  - discriminate.
Qed.

Lemma newErrors_other (step : Z) (d : FormData) :
  step ≠ 1 → step ≠ 2 → step ≠ 3 → newErrors step d = ∅.
Proof. destruct step as [|[[]|[]|]|]; simpl; intros; done || lia. Qed.

Lemma step_fields_other (step : Z) :
  step ≠ 1 → step ≠ 2 → step ≠ 3 → step_fields step = [].
Proof. destruct step as [|[[]|[]|]|]; simpl; intros; done || lia. Qed.

(** The map [validateStep] stores holds the failures of the step's own
    validators and nothing else. *)
Lemma validateStep_errors_lookup (step : Z) (st : Hook) (f : Field) :
  errors (validateStep step st).1 !! f = step_failures step (formData st) f.
Proof.
  simpl. rewrite filterErrors_lookup. unfold step_failures.
  destruct (decide (step = 1)) as [->|H1];
    [|destruct (decide (step = 2)) as [->|H2];
      [|destruct (decide (step = 3)) as [->|H3]]].
  - destruct f; simpl; simplify_map_eq; rewrite ?bool_decide_eq_true_2 by set_solver;
      rewrite ?bool_decide_eq_false_2 by set_solver; by repeat case_match.
  - destruct f; simpl; simplify_map_eq; rewrite ?bool_decide_eq_true_2 by set_solver;
      rewrite ?bool_decide_eq_false_2 by set_solver; by repeat case_match.
  - destruct f; simpl; simplify_map_eq; rewrite ?bool_decide_eq_true_2 by set_solver;
      rewrite ?bool_decide_eq_false_2 by set_solver; by repeat case_match.
  - rewrite newErrors_other, step_fields_other by done.
    rewrite lookup_empty. by rewrite bool_decide_eq_false_2 by set_solver.
Qed.

Lemma validateStep_result (step : Z) (st : Hook) :
  (validateStep step st).2 = true ↔ errors (validateStep step st).1 = ∅.
Proof. simpl. by rewrite Nat.eqb_eq, map_size_empty_iff. Qed.

Lemma validateStep_frame (step : Z) (st : Hook) :
  formData (validateStep step st).1 = formData st
  ∧ currentStep (validateStep step st).1 = currentStep st
  ∧ isSubmitting (validateStep step st).1 = isSubmitting st.
Proof. done. Qed.

(** ** The validator of the e-mail address *)

(** C9. [validateEmail] answers "Email is required" exactly when the trimmed
    value is empty; otherwise it answers "Please enter a valid email
    address" exactly when the raw value is not of the shape part [@] part
    [.] part, each part one or more characters that are neither whitespace
    nor [@]; otherwise it reports no error. *)
Theorem validateEmail_spec (s : list N) :
  (validation.validateEmail s = Some "Email is required"%string ↔ Js.trim s = [])
  ∧ (validation.validateEmail s = Some "Please enter a valid email address"%string
     ↔ Js.trim s ≠ [] ∧ ¬ email_shape s)
  ∧ (validation.validateEmail s = None ↔ Js.trim s ≠ [] ∧ email_shape s).
Proof.
  unfold validation.validateEmail.
  destruct (Js.trim s) as [|c t] eqn:Ht; simpl.
  - repeat split; try done; intros []; done.
  - destruct (Regex.test validation.emailRegex s) eqn:Hm.
    + apply emailRegex_shape in Hm. repeat split; try done. by intros [_ []].
    + assert (¬ email_shape s) as Hn.
      { rewrite <- emailRegex_shape. congruence. }
      repeat split; try done. by intros [_ ?].
Qed.

(** ** Step validation *)

(** C5. For a step among 1, 2 and 3, [validateStep] stores a map whose
    entries are exactly the failures of the validators the step owns,
    whatever the map held before, and returns [true] exactly when that map
    is empty; nothing else of the state changes. *)
Theorem validateStep_owned (step : Z) (st : Hook) :
  1 <= step <= 3 →
  (∀ f, errors (validateStep step st).1 !! f = step_failures step (formData st) f)
  ∧ (step_fields step
     = if decide (step = 1) then [fld_fullName; fld_email]
       else if decide (step = 2) then [fld_username; fld_password]
       else [fld_theme])
  ∧ (∀ e, errors (validateStep step (setErrors e st)).1
          = errors (validateStep step st).1)
  ∧ ((validateStep step st).2 = true ↔ errors (validateStep step st).1 = ∅)
  ∧ ((validateStep step st).2 = true
     ↔ ∀ f, f ∈ step_fields step → validate_field f (formData st) = None)
  ∧ formData (validateStep step st).1 = formData st
  ∧ currentStep (validateStep step st).1 = currentStep st
  ∧ isSubmitting (validateStep step st).1 = isSubmitting st.
Proof.
  intros Hstep. split; [apply validateStep_errors_lookup|].
  split.
  { assert (step = 1 ∨ step = 2 ∨ step = 3) as [-> | [-> | ->]] by lia; done. }
  split; [done|]. split; [apply validateStep_result|]. split; [|done].
  rewrite validateStep_result, map_empty.
  setoid_rewrite validateStep_errors_lookup. unfold step_failures.
  split.
  - intros H f Hf. specialize (H f).
    rewrite bool_decide_eq_true_2 in H by done.
    by destruct (validate_field f (formData st)).
  - intros H f. case_bool_decide as Hf; [|done]. by rewrite (H f Hf).
Qed.

Lemma validateStep_owned_witness :
  1 <= 1 <= 3
  ∧ errors (validateStep 1 sample_invalid).1 !! fld_theme = None
  ∧ errors (validateStep 1 sample_invalid).1 !! fld_fullName
    = Some (Some "Name must be at least 2 characters"%string)
  ∧ errors (validateStep 1 sample_invalid).1 !! fld_email
    = Some (Some "Please enter a valid email address"%string).
Proof.
  split; [lia|].
  destruct (validateStep_owned 1 sample_invalid ltac:(lia)) as [H _].
  rewrite !H. repeat split; reflexivity.
Defined.

(** C10. For a step outside 1, 2 and 3, [validateStep] runs no validator:
    it stores the empty map, dropping whatever errors were recorded, and
    returns [true]. *)
Theorem validateStep_unowned (step : Z) (st : Hook) :
  step ≠ 1 → step ≠ 2 → step ≠ 3 →
  validateStep step st = (setErrors ∅ st, true).
Proof.
  intros H1 H2 H3. unfold validateStep.
  rewrite newErrors_other by done. unfold filterErrors.
  by rewrite map_filter_empty, map_size_empty.
Qed.

Lemma validateStep_unowned_witness :
  4 ≠ 1 ∧ 4 ≠ 2 ∧ 4 ≠ 3
  ∧ validateStep 4 sample_invalid = (setErrors ∅ sample_invalid, true)
  ∧ errors sample_invalid ≠ ∅.
Proof.
  split; [lia|]. split; [lia|]. split; [lia|]. split.
  - apply (validateStep_unowned 4 sample_invalid); lia.
  - intros H. apply (f_equal (lookup fld_theme)) in H. discriminate H.
Defined.

(** ** Navigation *)

(** C1. [goToNextStep] moves only when [validateStep currentStep] returns
    [true], and then to the next step, at most 3; when validation fails the
    step stays and the error map holds exactly the failures of the current
    step's validators. *)
Theorem goToNextStep_gated (st : Hook) :
  formData (goToNextStep st) = formData st
  ∧ isSubmitting (goToNextStep st) = isSubmitting st
  ∧ if (validateStep (currentStep st) st).2
    then currentStep (goToNextStep st) = Z.min (currentStep st + 1) 3
         ∧ errors (goToNextStep st) = ∅
    else currentStep (goToNextStep st) = currentStep st
         ∧ ∀ f, errors (goToNextStep st) !! f
                = step_failures (currentStep st) (formData st) f.
Proof.
  pose proof (validateStep_result (currentStep st) st) as Hr.
  pose proof (validateStep_errors_lookup (currentStep st) st) as Hl.
  unfold goToNextStep.
  destruct (validateStep (currentStep st) st) as [st1 ok] eqn:Hv.
  assert (formData st1 = formData st ∧ currentStep st1 = currentStep st
          ∧ isSubmitting st1 = isSubmitting st) as (Hd & Hc & Hs).
  { unfold validateStep in Hv. by injection Hv as <- _. }
  simpl in *. destruct ok; simpl.
  - rewrite Hc. repeat split; try done. by apply Hr.
  - done.
Qed.

(** C6. [goToPreviousStep] always steps back, not below 1, and always
    leaves the error map empty. *)
Theorem goToPreviousStep_spec (st : Hook) :
  currentStep (goToPreviousStep st) = Z.max (currentStep st - 1) 1
  ∧ errors (goToPreviousStep st) = ∅
  ∧ formData (goToPreviousStep st) = formData st
  ∧ isSubmitting (goToPreviousStep st) = isSubmitting st.
Proof. done. Qed.

(** ** Reset *)

(** C7. [resetForm] yields the initial state: empty text fields, no theme,
    newsletter off, step 1, no errors, status Idle; applying it twice is
    the same as applying it once. *)
Theorem resetForm_initial (st : Hook) :
  resetForm st = initialHook
  ∧ resetForm st = mkHook (mkFormData [] [] [] [] NoTheme false) ∅ 1 false
  ∧ resetForm (resetForm st) = resetForm st.
Proof. done. Qed.

(** ** Submission *)

(** C2. [submitForm] validates step 3 first. When that fails it returns
    [false] at once: no event happens, so the finalize promise is never
    awaited and the status is left as it was. When it succeeds the status
    is set to Submitting, the promise is awaited exactly once, and however
    it settles the status is Idle when [submitForm] returns; a rejection is
    caught, logged and turned into [false]. The step never changes, also
    when other operations ran while the promise was pending. *)
Theorem submitForm_spec (o : settled) (st : Hook) :
  currentStep (submitForm o st).1.1 = currentStep st
  ∧ formData (submitForm o st).1.1 = formData st
  ∧ (∀ st2, currentStep (submit_resume o st2).1.1 = currentStep st2
            ∧ isSubmitting (submit_resume o st2).1.1 = false)
  ∧ if (validateStep 3 st).2
    then isSubmitting (submit_start st).1.1 = true
         ∧ (submitForm o st).2
           = EvSetIsSubmitting true :: EvAwait
             :: match o with Fulfilled => [] | Rejected => [EvConsoleError] end
             ++ [EvSetIsSubmitting false]
         ∧ length (List.filter is_await (submitForm o st).2) = 1%nat
         ∧ isSubmitting (submitForm o st).1.1 = false
         ∧ (submitForm o st).1.2
           = match o with Fulfilled => true | Rejected => false end
    else (submitForm o st).1.2 = false
         ∧ (submitForm o st).2 = []
         ∧ isSubmitting (submitForm o st).1.1 = isSubmitting st
         ∧ (submitForm o st).1.1 = (validateStep 3 st).1.
Proof.
  split; [|split; [|split]].
  - unfold submitForm, submit_start.
    destruct (validateStep 3 st) as [st1 ok] eqn:Hv.
    injection Hv as <- _. by destruct ok, o.
  - unfold submitForm, submit_start.
    destruct (validateStep 3 st) as [st1 ok] eqn:Hv.
    injection Hv as <- _. by destruct ok, o.
  - intros st2. by destruct o.
  - unfold submitForm, submit_start.
    destruct (validateStep 3 st) as [st1 ok] eqn:Hv.
    injection Hv as <- _. simpl. destruct ok; simpl; [by destruct o | done].
Qed.

(** ** Closing the modal *)

Lemma truthy_trim (s : list N) : Js.truthy (Js.trim s) = true ↔ Js.trim s ≠ [].
Proof. by destruct (Js.trim s). Qed.

Lemma hasData_dirty (d : FormData) : hasData d = true ↔ dirty d.
Proof.
  unfold hasData, dirty, Object_values. simpl.
  rewrite !orb_true_iff, !truthy_trim.
  assert (Js.trim (theme_value (theme d)) ≠ [] ↔ theme d ≠ NoTheme) as ->.
  { destruct (theme d); simpl; split; intros H; done || by vm_compute. }
  assert (newsletter d = true ∨ false = true ↔ newsletter d = true) as ->
    by (split; [by intros [|] | auto]).
  tauto.
Qed.

(** C8. [handleCloseModal] finds the form dirty exactly when some text
    field is non-empty after trimming, or the newsletter box is ticked, or
    a theme is chosen. When the form is dirty and the confirmation is
    declined nothing changes; otherwise the modal is hidden and the form is
    reset. *)
Theorem handleCloseModal_spec (confirm : string -> bool) (m : Modal) :
  (hasData (formData (form m)) = true ↔ dirty (formData (form m)))
  ∧ handleCloseModal confirm m
    = (if decide (dirty (formData (form m))
                  ∧ confirm "Close and lose progress?"%string = false)
       then m
       else mkModal false (resetForm (form m)))
  ∧ resetForm (form m) = initialHook.
Proof.
  split; [apply hasData_dirty|]. split; [|done].
  unfold handleCloseModal. pose proof (hasData_dirty (formData (form m))) as Hd.
  destruct (hasData (formData (form m))); simpl.
  - destruct (confirm _); simpl.
    + by rewrite decide_False by (by intros [_ ?]).
    + by rewrite decide_True by (split; [by apply Hd | done]).
  - rewrite decide_False; [done|]. intros [H _]. apply Hd in H. done.
Qed.

(** ** Editing a field *)

Lemma get_set_field (f : Field) (v : field_type f) (d : FormData) :
  get_field f (set_field f v d) = v.
Proof. by destruct f. Qed.

Lemma get_set_field_ne (f g : Field) (v : field_type f) (d : FormData) :
  g ≠ f → get_field g (set_field f v d) = get_field g d.
Proof. by destruct f, g. Qed.

Lemma validate_set_field_ne (f g : Field) (v : field_type f) (d : FormData) :
  g ≠ f → validate_field g (set_field f v d) = validate_field g d.
Proof. by destruct f, g. Qed.

Lemma error_truthy_message (e : option (option string)) :
  error_truthy e = true ↔ ∃ m, e = Some (Some m) ∧ m ≠ EmptyString.
Proof.
  destruct e as [[[|a m]|]|]; simpl; split; try done;
    try (by intros (m' & [= <-] & ?)); try (by intros (? & ? & ?)).
  intros _. by exists (String a m).
Qed.

(** C3, as the code has it. [updateField] writes the value without
    validating it, and a read of the field returns it; the other fields,
    the step and the status are untouched. When a message was recorded for
    the field, the field's entry is overwritten with null: the key stays in
    the error object and no message is shown for it. The entries of the
    other fields are untouched, and when no message was recorded the error
    object is unchanged. *)
Theorem updateField_spec (st : Hook) (f : Field) (v : field_type f) :
  get_field f (formData (updateField f v st)) = v
  ∧ (∀ g, g ≠ f →
       get_field g (formData (updateField f v st)) = get_field g (formData st))
  ∧ currentStep (updateField f v st) = currentStep st
  ∧ isSubmitting (updateField f v st) = isSubmitting st
  ∧ (∀ v', errors (updateField f v' st) = errors (updateField f v st))
  ∧ errors (updateField f v st) !! f
    = (if error_truthy (errors st !! f) then Some None else errors st !! f)
  ∧ error_truthy (errors (updateField f v st) !! f) = false
  ∧ (∀ g, g ≠ f → errors (updateField f v st) !! g = errors st !! g)
  ∧ errors (updateField f v st)
    = (if error_truthy (errors st !! f)
       then <[f := None]> (errors st) else errors st).
Proof.
  unfold updateField.
  destruct (error_truthy (errors st !! f)) eqn:Ht; simpl.
  - rewrite get_set_field, lookup_insert_eq. repeat split; try done.
    + intros g Hg. by apply get_set_field_ne.
    + intros g Hg. by rewrite lookup_insert_ne.
  - rewrite get_set_field. repeat split; try done.
    intros g Hg. by apply get_set_field_ne.
Qed.

(** C3, as the specification states it, fails: after a failed attempt to
    leave step 1 the name has a message, and typing a name leaves the key
    [fullName] in the error object, holding null, instead of removing it. *)
Lemma updateField_entry_kept :
  errors sample_step1_failed !! fld_fullName
  = Some (Some "Full name is required"%string)
  ∧ errors (updateField fld_fullName (Js.lit "Jo") sample_step1_failed)
    !! fld_fullName = Some None
  ∧ errors (updateField fld_fullName (Js.lit "Jo") sample_step1_failed)
    !! fld_fullName ≠ None.
Proof. split; [reflexivity|]. split; [reflexivity | discriminate]. Qed.

(** ** The error object along a run *)

Lemma step_failures_current (step : Z) (d : FormData) (f : Field) (m : string) :
  step_failures step d f = Some (Some m) → validate_field f d = Some m.
Proof.
  unfold step_failures. case_bool_decide; [|done].
  destruct (validate_field f d); [|done]. by intros [= ->].
Qed.

Lemma validateStep_current (step : Z) (st : Hook) :
  messages_current (validateStep step st).1.
Proof.
  intros f m. rewrite validateStep_errors_lookup.
  apply step_failures_current.
Qed.

Lemma updateField_current (f : Field) (v : field_type f) (st : Hook) :
  messages_current st → messages_current (updateField f v st).
Proof.
  intros Hinv g m. unfold updateField.
  destruct (error_truthy (errors st !! f)) eqn:Ht; simpl.
  - destruct (decide (g = f)) as [->|Hg].
    + by rewrite lookup_insert_eq.
    + rewrite lookup_insert_ne by done. rewrite validate_set_field_ne by done.
      apply Hinv.
  - destruct (decide (g = f)) as [->|Hg].
    + intros Hm. exfalso.
      assert (error_truthy (errors st !! f) = true); [|congruence].
      apply error_truthy_message. exists m. split; [done|].
      eapply validate_field_message. by apply Hinv.
    + rewrite validate_set_field_ne by done. apply Hinv.
Qed.

Lemma goToNextStep_current (st : Hook) : messages_current (goToNextStep st).
Proof.
  pose proof (validateStep_current (currentStep st) st) as H.
  unfold goToNextStep.
  destruct (validateStep (currentStep st) st) as [st1 ok]. simpl in H.
  by destruct ok.
Qed.

Lemma submit_start_current (st : Hook) : messages_current (submit_start st).1.1.
Proof.
  pose proof (validateStep_current 3 st) as H. unfold submit_start.
  destruct (validateStep 3 st) as [st1 ok]. simpl in H. by destruct ok.
Qed.

Lemma submit_resume_current (o : settled) (st : Hook) :
  messages_current st → messages_current (submit_resume o st).1.1.
Proof. by destruct o. Qed.

Lemma submitForm_current (o : settled) (st : Hook) :
  messages_current (submitForm o st).1.1.
Proof.
  pose proof (submit_start_current st) as H. unfold submitForm.
  destruct (submit_start st) as [[st1 ok] tr]. simpl in H.
  destruct ok; [|done]. by destruct o.
Qed.

Lemma run_op_current (st : Hook) (o : op) :
  messages_current st → messages_current (run_op st o).
Proof.
  intros H. destruct o; simpl.
  - by apply updateField_current.
  - apply validateStep_current.
  - apply goToNextStep_current.
  - intros f m. cbn. by rewrite lookup_empty.
  - apply submitForm_current.
  - apply submit_start_current.
  - by apply submit_resume_current.
  - intros f m. cbn. by rewrite lookup_empty.
Qed.

Lemma run_ops_current (ops : list op) (st : Hook) :
  messages_current st → messages_current (fold_left run_op ops st).
Proof.
  revert st. induction ops as [|o ops IH]; intros st H; simpl; [done|].
  apply IH. by apply run_op_current.
Qed.

(** C4, as the code has it. In every state that a sequence of operations
    reaches from the initial one, a field holds a message only when its
    validator currently fails on the stored value, with that very message,
    and the message is never empty. (A key may hold null: see
    [error_map_null_entry].) *)
Theorem reachable_messages_current (st : Hook) (f : Field) (m : string) :
  reachable st →
  errors st !! f = Some (Some m) →
  validate_field f (formData st) = Some m ∧ m ≠ EmptyString.
Proof.
  intros [ops ->] Hm.
  assert (messages_current (fold_left run_op ops initialHook)) as Hinv.
  { apply run_ops_current. intros g m'. cbn. by rewrite lookup_empty. }
  split; [by apply Hinv|].
  eapply validate_field_message. by apply Hinv.
Qed.

Lemma reachable_sample_name_typed : reachable sample_name_typed.
Proof.
  by exists [OpGoToNextStep; OpUpdateField fld_fullName (Js.lit "Jo")].
Qed.

Lemma reachable_messages_current_witness :
  reachable sample_name_typed
  ∧ errors sample_name_typed !! fld_email = Some (Some "Email is required"%string)
  ∧ validate_field fld_email (formData sample_name_typed)
    = Some "Email is required"%string
  ∧ "Email is required"%string ≠ EmptyString.
Proof.
  split; [apply reachable_sample_name_typed|]. split; [reflexivity|].
  apply (reachable_messages_current sample_name_typed fld_email).
  - apply reachable_sample_name_typed.
  - reflexivity.
Defined.

(** C4, as the specification states it, fails: after a failed attempt to
    leave step 1 and a name typed in, the key [fullName] is in the error
    object although its validator accepts the stored name, and it is mapped
    to null. *)
Lemma error_map_null_entry :
  reachable sample_name_typed
  ∧ errors sample_name_typed !! fld_fullName = Some None
  ∧ validate_field fld_fullName (formData sample_name_typed) = None.
Proof.
  split; [apply reachable_sample_name_typed|]. split; reflexivity.
Qed.

(** ** The scenarios of the specification *)

Example scenario_A :
  currentStep (goToNextStep initialHook) = 1
  ∧ errors (goToNextStep initialHook)
    = {[ fld_fullName := Some "Full name is required"%string;
         fld_email := Some "Email is required"%string ]}.
Proof. split; [reflexivity|]. by vm_compute. Qed.

Example scenario_B :
  goToNextStep (at_step 1 sample_valid) = at_step 2 sample_valid.
Proof. by vm_compute. Qed.

Example scenario_C :
  goToNextStep
    (at_step 2 (mkFormData (Js.lit "Jo") (Js.lit "jo@x.com") (Js.lit "ab")
                  (Js.lit "123456") NoTheme false))
  = mkHook (mkFormData (Js.lit "Jo") (Js.lit "jo@x.com") (Js.lit "ab")
              (Js.lit "123456") NoTheme false)
      {[ fld_username := Some "Username must be at least 3 characters"%string ]}
      2 false.
Proof. by vm_compute. Qed.

Example scenario_D (o : settled) :
  submitForm o (at_step 3 initialFormData)
  = (mkHook initialFormData {[ fld_theme := Some "Please select a theme"%string ]}
       3 false, false, []).
Proof. by vm_compute. Qed.

Example scenario_E :
  submitForm Fulfilled (at_step 3 sample_valid)
  = (at_step 3 sample_valid, true,
     [EvSetIsSubmitting true; EvAwait; EvSetIsSubmitting false]).
Proof. by vm_compute. Qed.

Example validateEmail_samples :
  validation.validateEmail (Js.lit "jo@x.com") = None
  ∧ validation.validateEmail (Js.lit "jo@xcom")
    = Some "Please enter a valid email address"%string
  ∧ validation.validateEmail (Js.lit "j o@x.com")
    = Some "Please enter a valid email address"%string
  ∧ validation.validateEmail (Js.lit "a@b@c.d")
    = Some "Please enter a valid email address"%string
  ∧ validation.validateEmail (Js.lit "a.b@c.d.e") = None
  ∧ validation.validateEmail (Js.lit "   ") = Some "Email is required"%string
  ∧ validation.validateEmail [160%N; 8232%N; 65279%N]
    = Some "Email is required"%string.
Proof. repeat split; reflexivity. Qed.

Example trim_samples :
  Js.trim (Js.lit "  a b  ") = Js.lit "a b"
  ∧ Js.trim (9 :: 10 :: 13 :: Js.lit "x")%N = Js.lit "x"
  ∧ Js.trim [] = [].
Proof. repeat split; reflexivity. Qed.

(** ** Sessions *)

Example sample_session_run : ui_run sample_session initialModal = Some sample_at_step3.
Proof. by vm_compute. Qed.

(** ** More on [trim] *)

Lemma trimStart_app (s r : list N) :
  Js.trimStart (s ++ r)
  = match Js.trimStart s with [] => Js.trimStart r | t => t ++ r end.
Proof.
  induction s as [|c s IH]; simpl; [by destruct (Js.trimStart r)|].
  by destruct (Js.isWhiteSpace c).
Qed.

Lemma trimStart_blank_app (l s : list N) :
  Forall (fun c => Js.isWhiteSpace c = true) l →
  Js.trimStart (l ++ s) = Js.trimStart s.
Proof.
  intros H. apply trimStart_nil_iff in H. by rewrite trimStart_app, H.
Qed.

Lemma trimEnd_app_blank (s r : list N) :
  Forall (fun c => Js.isWhiteSpace c = true) r →
  Js.trimEnd (s ++ r) = Js.trimEnd s.
Proof.
  intros H. unfold Js.trimEnd. rewrite rev_app_distr.
  rewrite trimStart_blank_app; [done|]. by apply Forall_rev.
Qed.

(** Whitespace around a string does not change what [trim] returns. *)
Lemma trim_padding (l s r : list N) :
  Forall (fun c => Js.isWhiteSpace c = true) l →
  Forall (fun c => Js.isWhiteSpace c = true) r →
  Js.trim (l ++ s ++ r) = Js.trim s.
Proof.
  intros Hl Hr. unfold Js.trim.
  rewrite trimStart_blank_app by done. rewrite trimStart_app.
  destruct (Js.trimStart s) as [|c t] eqn:Hs.
  - apply trimStart_nil_iff in Hr. by rewrite Hr.
  - by rewrite trimEnd_app_blank.
Qed.

Lemma wordChar_not_space (c : N) :
  validation.wordChar c = true → Js.isWhiteSpace c = false.
Proof.
  intros H. apply not_true_is_false. intros Hs. revert H Hs.
  unfold validation.wordChar, Js.isWhiteSpace.
  rewrite !orb_true_iff, !andb_true_iff, !N.leb_le, !N.eqb_eq. lia.
Qed.

(** ** The other validators *)

(** [validateFullName] looks at the trimmed name only: whitespace before
    and after the name changes nothing of its answer. *)
Theorem validateFullName_padding (l s r : list N) :
  Forall (fun c => Js.isWhiteSpace c = true) l →
  Forall (fun c => Js.isWhiteSpace c = true) r →
  validation.validateFullName (l ++ s ++ r) = validation.validateFullName s.
Proof.
  intros Hl Hr. unfold validation.validateFullName.
  by rewrite trim_padding.
Qed.

Lemma validateFullName_padding_witness :
  Forall (fun c => Js.isWhiteSpace c = true) (Js.lit "  ")
  ∧ Forall (fun c => Js.isWhiteSpace c = true) [9%N; 160%N]
  ∧ validation.validateFullName (Js.lit "  " ++ Js.lit "Jo" ++ [9%N; 160%N])
    = validation.validateFullName (Js.lit "Jo").
Proof.
  assert (Forall (fun c => Js.isWhiteSpace c = true) (Js.lit "  ")) as Hl
    by (repeat constructor).
  assert (Forall (fun c => Js.isWhiteSpace c = true) [9%N; 160%N]) as Hr
    by (repeat constructor).
  split; [exact Hl|]. split; [exact Hr|].
  exact (validateFullName_padding _ (Js.lit "Jo") _ Hl Hr).
Defined.

(** [validateFullName] accepts exactly the names that keep two characters
    or more after trimming, and asks for a name exactly when every
    character is whitespace. *)
Theorem validateFullName_spec (s : list N) :
  (validation.validateFullName s = Some "Full name is required"%string
   ↔ Forall (fun c => Js.isWhiteSpace c = true) s)
  ∧ (validation.validateFullName s
     = Some "Name must be at least 2 characters"%string
     ↔ length (Js.trim s) = 1%nat)
  ∧ (validation.validateFullName s = None ↔ (2 ≤ length (Js.trim s))%nat).
Proof.
  rewrite <- trim_nil_iff. unfold validation.validateFullName.
  destruct (Js.trim s) as [|c t] eqn:Ht.
  - repeat split; intros; try done; simpl in *; lia.
  - destruct t as [|c' t].
    + repeat split; intros; try done; simpl in *; lia.
    + assert ((Z.of_nat (length (c :: c' :: t)) <? 2) = false) as ->
        by (apply Z.ltb_ge; simpl; lia).
      repeat split; intros; try done; simpl in *; lia.
Qed.

(** [validateUsername] accepts exactly the names of three characters or
    more made of ASCII letters, digits and underscores. It asks for a name
    exactly when every character is whitespace, whatever the length; it
    reports the length when fewer than three characters are given, and the
    alphabet otherwise. *)
Theorem validateUsername_spec (s : list N) :
  (validation.validateUsername s = None
   ↔ (3 ≤ length s)%nat ∧ Forall (fun c => validation.wordChar c = true) s)
  ∧ (validation.validateUsername s = Some "Username is required"%string
     ↔ Forall (fun c => Js.isWhiteSpace c = true) s)
  ∧ (validation.validateUsername s
     = Some "Username must be at least 3 characters"%string
     ↔ ¬ Forall (fun c => Js.isWhiteSpace c = true) s ∧ (length s < 3)%nat)
  ∧ (validation.validateUsername s
     = Some "Username can only contain letters, numbers, and underscores"%string
     ↔ ¬ Forall (fun c => Js.isWhiteSpace c = true) s ∧ (3 ≤ length s)%nat
       ∧ ¬ Forall (fun c => validation.wordChar c = true) s).
Proof.
  assert (Forall (fun c => validation.wordChar c = true) s → s ≠ [] →
          ¬ Forall (fun c => Js.isWhiteSpace c = true) s) as Hword.
  { intros Hw Hne Hs. destruct s as [|c s]; [done|].
    inversion Hw; subst. inversion Hs; subst.
    assert (Js.isWhiteSpace c = false) by (by apply wordChar_not_space).
    congruence. }
  assert (Regex.test validation.usernameRegex s = true
          ↔ s ≠ [] ∧ Forall (fun c => validation.wordChar c = true) s) as Hre.
  { unfold validation.usernameRegex.
    by rewrite RegexFacts.test_lang, RegexFacts.lang_plus_class. }
  assert (Js.trim s = [] ↔ Forall (fun c => Js.isWhiteSpace c = true) s) as Hts
    by apply trim_nil_iff.
  unfold validation.validateUsername.
  destruct (Js.trim s) as [|c t] eqn:Ht; simpl.
  - assert (Forall (fun c => Js.isWhiteSpace c = true) s) as Hs by (by apply Hts).
    assert ((3 ≤ length s)%nat → s ≠ []) as Hne
      by (intros Hl ->; simpl in Hl; lia).
    intuition (try done).
  - assert (¬ Forall (fun c => Js.isWhiteSpace c = true) s) as Hns
      by (by rewrite <- Hts).
    destruct (Z.of_nat (length s) <? 3) eqn:Hlen.
    + apply Z.ltb_lt in Hlen. intuition (try done; try lia).
    + apply Z.ltb_ge in Hlen.
      assert (s ≠ []) as Hne by (intros ->; simpl in Hlen; lia).
      destruct (Regex.test validation.usernameRegex s) eqn:Hm; simpl.
      * destruct Hre as [Hre _]. destruct (Hre eq_refl) as [_ Hw].
        intuition (try done; try lia).
      * assert (¬ Forall (fun c => validation.wordChar c = true) s) as Hnw.
        { intros Hw. destruct Hre as [_ Hre]. by specialize (Hre (conj Hne Hw)). }
        intuition (try done; try lia).
Qed.

(** [validatePassword] counts the raw length: a password is accepted
    exactly when it has six characters or more, whitespace included, and
    at least one character that is not whitespace. *)
Theorem validatePassword_spec (s : list N) :
  (validation.validatePassword s = None
   ↔ (6 ≤ length s)%nat ∧ ¬ Forall (fun c => Js.isWhiteSpace c = true) s)
  ∧ (validation.validatePassword s = Some "Password is required"%string
     ↔ Forall (fun c => Js.isWhiteSpace c = true) s)
  ∧ (validation.validatePassword s
     = Some "Password must be at least 6 characters"%string
     ↔ ¬ Forall (fun c => Js.isWhiteSpace c = true) s ∧ (length s < 6)%nat).
Proof.
  assert (Js.trim s = [] ↔ Forall (fun c => Js.isWhiteSpace c = true) s) as Hts
    by apply trim_nil_iff.
  unfold validation.validatePassword.
  destruct (Js.trim s) as [|c t] eqn:Ht; simpl.
  - assert (Forall (fun c => Js.isWhiteSpace c = true) s) as Hs by (by apply Hts).
    intuition (try done).
  - assert (¬ Forall (fun c => Js.isWhiteSpace c = true) s) as Hns
      by (by rewrite <- Hts).
    destruct (Z.of_nat (length s) <? 6) eqn:Hlen.
    + apply Z.ltb_lt in Hlen. intuition (try done; try lia).
    + apply Z.ltb_ge in Hlen. intuition (try done; try lia).
Qed.

Lemma trim_no_space (s : list N) :
  Forall (fun c => Js.isWhiteSpace c = false) s → Js.trim s = s.
Proof.
  assert (∀ t, Forall (fun c => Js.isWhiteSpace c = false) t → Js.trimStart t = t)
    as Hstart.
  { intros [|c t]; [done|]. inversion 1 as [|? ? Hc _]; subst. simpl. by rewrite Hc. }
  intros H. unfold Js.trim, Js.trimEnd. rewrite (Hstart s H).
  rewrite Hstart by (by apply Forall_rev). apply rev_involutive.
Qed.

Lemma local_part_facts (a : list N) :
  local_part a →
  (1 ≤ length a)%nat ∧ count_occ N.eq_dec a 64%N = 0%nat
  ∧ Forall (fun c => Js.isWhiteSpace c = false) a.
Proof.
  intros [Hne H]. split; [destruct a; simpl; [done | lia]|]. split.
  - apply count_occ_not_In. intros Hin.
    rewrite Forall_forall in H. rewrite <- list_elem_of_In in Hin.
    by destruct (H _ Hin).
  - eapply Forall_impl; [exact H|]. by intros c [? _].
Qed.

Lemma validateEmail_None_shape (s : list N) :
  validation.validateEmail s = None → email_shape s.
Proof.
  unfold validation.validateEmail. destruct (negb _); [done|].
  destruct (Regex.test validation.emailRegex s) eqn:Hm; [|done].
  intros _. by apply emailRegex_shape.
Qed.

(** An address that [validateEmail] accepts has exactly one [@], holds no
    whitespace at all (so trimming leaves it as it is) and has five
    characters or more, a dot among them. *)
Theorem validateEmail_accepted (s : list N) :
  validation.validateEmail s = None →
  count_occ N.eq_dec s 64%N = 1%nat
  ∧ Forall (fun c => Js.isWhiteSpace c = false) s
  ∧ Js.trim s = s
  ∧ (5 ≤ length s)%nat
  ∧ In 46%N s.
Proof.
  intros H. apply validateEmail_None_shape in H as (a & b & c & -> & Ha & Hb & Hc).
  apply local_part_facts in Ha as (Hla & Hca & Hwa).
  apply local_part_facts in Hb as (Hlb & Hcb & Hwb).
  apply local_part_facts in Hc as (Hlc & Hcc & Hwc).
  assert (Forall (fun c => Js.isWhiteSpace c = false)
            (a ++ 64%N :: b ++ 46%N :: c)) as Hw.
  { apply Forall_app; split; [done|]. constructor; [done|].
    apply Forall_app; split; [done|]. by constructor. }
  split; [|split; [done|split; [by apply trim_no_space|split]]].
  - rewrite count_occ_app, Hca. simpl. rewrite count_occ_app, Hcb. simpl.
    by rewrite Hcc.
  - rewrite !length_app; simpl. rewrite !length_app; simpl. lia.
  - apply in_or_app. right. right. apply in_or_app. right. by left.
Qed.

Lemma validateEmail_accepted_witness :
  validation.validateEmail (Js.lit "jo@x.com") = None
  ∧ count_occ N.eq_dec (Js.lit "jo@x.com") 64%N = 1%nat
  ∧ Js.trim (Js.lit "jo@x.com") = Js.lit "jo@x.com".
Proof.
  split; [reflexivity|].
  destruct (validateEmail_accepted (Js.lit "jo@x.com") eq_refl)
    as (H1 & _ & H2 & _).
  by split.
Defined.

(** ** How the handlers of the hook compose *)

Lemma set_field_twice (f : Field) (v w : field_type f) (d : FormData) :
  set_field f w (set_field f v d) = set_field f w d.
Proof. by destruct f. Qed.

Lemma set_field_commute (f g : Field) (v : field_type f) (w : field_type g)
    (d : FormData) :
  f ≠ g → set_field f v (set_field g w d) = set_field g w (set_field f v d).
Proof. by destruct f, g. Qed.

(** Typing twice into a field leaves the state that the second value alone
    would leave: the last write wins, for the value and for the error object. *)
Theorem updateField_last_write (f : Field) (v w : field_type f) (st : Hook) :
  updateField f w (updateField f v st) = updateField f w st.
Proof.
  unfold updateField.
  destruct (error_truthy (errors st !! f)) eqn:Ht; simpl.
  - rewrite lookup_insert_eq. simpl. by rewrite set_field_twice.
  - rewrite Ht. simpl. by rewrite set_field_twice.
Qed.

(** Edits of two different fields commute. *)
Theorem updateField_commute (f g : Field) (v : field_type f) (w : field_type g)
    (st : Hook) :
  f ≠ g →
  updateField f v (updateField g w st) = updateField g w (updateField f v st).
Proof.
  intros Hne. unfold updateField.
  destruct (error_truthy (errors st !! f)) eqn:Hf;
    destruct (error_truthy (errors st !! g)) eqn:Hg; simpl;
    rewrite ?lookup_insert_ne by done; rewrite ?Hf, ?Hg; simpl;
    rewrite (set_field_commute f g) by done; try done.
  by rewrite insert_insert_ne.
Qed.

Lemma updateField_commute_witness :
  fld_fullName ≠ fld_email
  ∧ updateField fld_fullName (Js.lit "Jo")
      (updateField fld_email (Js.lit "jo@x.com") sample_step1_failed)
    = updateField fld_email (Js.lit "jo@x.com")
        (updateField fld_fullName (Js.lit "Jo") sample_step1_failed).
Proof.
  split; [discriminate|].
  apply (updateField_commute fld_fullName fld_email). discriminate.
Defined.

(** A refused [goToNextStep] stores the step's failures and nothing else;
    pressing Next again without editing is refused again and changes
    nothing more. *)
Theorem goToNextStep_refused_again (st : Hook) :
  (validateStep (currentStep st) st).2 = false →
  goToNextStep st = (validateStep (currentStep st) st).1
  ∧ goToNextStep (goToNextStep st) = goToNextStep st.
Proof.
  intros Hf.
  assert (∀ st', (validateStep (currentStep st') st').2 = false →
                 goToNextStep st' = (validateStep (currentStep st') st').1) as Hr.
  { intros st' H. unfold goToNextStep.
    destruct (validateStep (currentStep st') st') as [st1 ok].
    simpl in H. by subst ok. }
  split; [by apply Hr|].
  rewrite (Hr st Hf). by rewrite Hr.
Qed.

Lemma goToNextStep_refused_again_witness :
  (validateStep (currentStep initialHook) initialHook).2 = false
  ∧ goToNextStep (goToNextStep initialHook) = goToNextStep initialHook.
Proof.
  split; [reflexivity|].
  apply (goToNextStep_refused_again initialHook). reflexivity.
Defined.

(** From step 1 or 2, when the step's fields are valid, going forward and
    then back returns to the same step with the same entries and an empty
    error object. *)
Theorem next_then_previous (st : Hook) :
  1 <= currentStep st <= 2 →
  (validateStep (currentStep st) st).2 = true →
  goToPreviousStep (goToNextStep st) = setErrors ∅ st.
Proof.
  intros Hs Hv. unfold goToNextStep.
  destruct (validateStep (currentStep st) st) as [st1 ok] eqn:Hst.
  simpl in Hv. subst ok. unfold validateStep in Hst. injection Hst as <- _.
  unfold goToPreviousStep, setErrors, setCurrentStep. simpl.
  f_equal. lia.
Qed.

Lemma next_then_previous_witness :
  1 <= currentStep (at_step 2 sample_valid) <= 2
  ∧ (validateStep (currentStep (at_step 2 sample_valid))
       (at_step 2 sample_valid)).2 = true
  ∧ goToPreviousStep (goToNextStep (at_step 2 sample_valid))
    = setErrors ∅ (at_step 2 sample_valid).
Proof.
  split; [simpl; lia|]. split; [reflexivity|].
  apply next_then_previous; [simpl; lia | reflexivity].
Defined.

(** ** Invariants of the hook *)

Lemma reachable_inv (P : Hook → Prop) :
  P initialHook → (∀ st o, P st → P (run_op st o)) →
  ∀ st, reachable st → P st.
Proof.
  intros Hinit Hstep st [ops ->].
  assert (∀ st0, P st0 → P (fold_left run_op ops st0)) as H; [|by apply H].
  induction ops as [|o ops IH]; intros st0 H0; simpl; [done|].
  apply IH. by apply Hstep.
Qed.

Lemma updateField_frame (f : Field) (v : field_type f) (st : Hook) :
  currentStep (updateField f v st) = currentStep st
  ∧ isSubmitting (updateField f v st) = isSubmitting st
  ∧ formData (updateField f v st) = set_field f v (formData st)
  ∧ ∀ g, is_Some (errors (updateField f v st) !! g) ↔ is_Some (errors st !! g).
Proof.
  unfold updateField.
  destruct (error_truthy (errors st !! f)) eqn:Ht; simpl; [|done].
  repeat split; try done.
  - destruct (decide (f = g)) as [<-|Hg]; [|by rewrite lookup_insert_ne].
    intros _. apply error_truthy_message in Ht as (m & -> & _). eauto.
  - destruct (decide (f = g)) as [<-|Hg]; [|by rewrite lookup_insert_ne].
    rewrite lookup_insert_eq. eauto.
Qed.

Lemma goToNextStep_cases (st : Hook) :
  (goToNextStep st
   = setCurrentStep (Z.min (currentStep st + 1) 3) (setErrors ∅ st)
   ∧ ∀ f, f ∈ step_fields (currentStep st) → validate_field f (formData st) = None)
  ∨ (goToNextStep st = (validateStep (currentStep st) st).1
     ∧ (validateStep (currentStep st) st).2 = false).
Proof.
  pose proof (validateStep_result (currentStep st) st) as Hr.
  pose proof (validateStep_errors_lookup (currentStep st) st) as Hl.
  unfold goToNextStep.
  destruct (validateStep (currentStep st) st) as [st1 ok] eqn:Hv.
  simpl in *. destruct ok; [left | by right].
  destruct Hr as [Hr _]. specialize (Hr eq_refl).
  unfold validateStep in Hv. injection Hv as <- _. simpl in *.
  split; [by rewrite Hr|].
  intros f Hf. specialize (Hl f). rewrite Hr, lookup_empty in Hl.
  unfold step_failures in Hl. rewrite bool_decide_eq_true_2 in Hl by done.
  by destruct (validate_field f (formData st)).
Qed.

Lemma submit_start_cases (st : Hook) :
  (submit_start st).1.1 = (validateStep 3 st).1
  ∨ ((submit_start st).1.1 = setIsSubmitting true (setErrors ∅ st)
     ∧ (submit_start st).1.2 = true
     ∧ ∀ f, f ∈ step_fields 3 → validate_field f (formData st) = None).
Proof.
  pose proof (validateStep_result 3 st) as Hr.
  pose proof (validateStep_errors_lookup 3 st) as Hl.
  unfold submit_start.
  destruct (validateStep 3 st) as [st1 ok] eqn:Hv.
  simpl in *. destruct ok; simpl; [right | by left].
  destruct Hr as [Hr _]. specialize (Hr eq_refl).
  unfold validateStep in Hv. injection Hv as <- _. simpl in *.
  split; [by rewrite Hr|]. split; [done|].
  intros f Hf. specialize (Hl f). rewrite Hr, lookup_empty in Hl.
  unfold step_failures in Hl. rewrite bool_decide_eq_true_2 in Hl by done.
  by destruct (validate_field f (formData st)).
Qed.

Lemma submit_start_awaiting (st : Hook) :
  (submit_start st).1.2 = false → (submit_start st).1.1 = (validateStep 3 st).1.
Proof.
  unfold submit_start. destruct (validateStep 3 st) as [st1 ok].
  by destruct ok.
Qed.

Lemma submitForm_state (o : settled) (st : Hook) :
  (submitForm o st).1.1 = (submit_start st).1.1
  ∨ (submitForm o st).1.1 = setIsSubmitting false (submit_start st).1.1.
Proof.
  unfold submitForm. destruct (submit_start st) as [[st1 ok] tr].
  destruct ok; [right; by destruct o | by left].
Qed.

Lemma validateStep_errors_on_step (step : Z) (st : Hook) :
  errors_on_step step (validateStep step st).1.
Proof.
  intros f. rewrite validateStep_errors_lookup. unfold step_failures.
  case_bool_decide; [done|]. by intros [? ?].
Qed.

Lemma errors_on_step_empty (step : Z) (st : Hook) :
  errors st = ∅ → errors_on_step step st.
Proof. intros H f. rewrite H, lookup_empty. by intros [? ?]. Qed.

Lemma run_op_step_range (st : Hook) :
  reachable st → 1 <= currentStep st <= 3.
Proof.
  apply (reachable_inv (fun st => 1 <= currentStep st <= 3)); [simpl; lia|].
  clear st. intros st o H. destruct o; simpl.
  - by rewrite (proj1 (updateField_frame f v st)).
  - done.
  - destruct (goToNextStep_cases st) as [[-> _] | [-> _]]; simpl; lia.
  - lia.
  - destruct (submitForm_state o st) as [-> | ->];
      destruct (submit_start_cases st) as [-> | [-> _]]; simpl; lia.
  - destruct (submit_start_cases st) as [-> | [-> _]]; simpl; lia.
  - by destruct o.
  - lia.
Qed.

(** In every state that a sequence of operations of the hook reaches,
    [currentStep] is 1, 2 or 3. *)
Theorem reachable_step_range (st : Hook) :
  reachable st → 1 <= currentStep st <= 3.
Proof. apply run_op_step_range. Qed.

Lemma reachable_step_range_witness :
  reachable sample_name_typed ∧ 1 <= currentStep sample_name_typed <= 3.
Proof.
  split; [apply reachable_sample_name_typed|].
  apply reachable_step_range, reachable_sample_name_typed.
Defined.

(** In every state that a sequence of operations of the hook reaches, the
    keys of the error object all belong to one step: errors of two steps
    never stand side by side, and the newsletter box never has an entry. *)
Theorem reachable_errors_one_step (st : Hook) :
  reachable st →
  (∃ step, 1 <= step <= 3 ∧ errors_on_step step st)
  ∧ errors st !! fld_newsletter = None.
Proof.
  intros Hr.
  assert (∃ step, 1 <= step <= 3 ∧ errors_on_step step st) as Hex.
  { revert st Hr. apply reachable_inv.
    { exists 1. split; [lia|]. by apply errors_on_step_empty. }
    assert (∀ n st, ∃ step, 1 <= step <= 3
                            ∧ errors_on_step step (validateStep n st).1) as Hval.
    { intros n st. destruct (decide (1 <= n <= 3)) as [Hn|Hn].
      - exists n. split; [done|]. apply validateStep_errors_on_step.
      - exists 1. split; [lia|]. apply errors_on_step_empty. simpl.
        rewrite newErrors_other by lia. apply map_filter_empty. }
    assert (∀ st, ∃ step, 1 <= step <= 3
                          ∧ errors_on_step step (submit_start st).1.1) as Hstart.
    { intros st. destruct (submit_start_cases st) as [-> | [-> _]]; [apply Hval|].
      exists 1. split; [lia|]. by apply errors_on_step_empty. }
    intros st o (step & Hs & H). destruct o; simpl.
    - exists step. split; [done|]. intros g Hg. apply H.
      by apply (updateField_frame f v st).
    - apply Hval.
    - destruct (goToNextStep_cases st) as [[-> _] | [-> _]]; [|apply Hval].
      exists 1. split; [lia|]. by apply errors_on_step_empty.
    - exists 1. split; [lia|]. by apply errors_on_step_empty.
    - destruct (Hstart st) as (n & Hn & Hst). exists n. split; [done|].
      by destruct (submitForm_state o st) as [-> | ->].
    - apply Hstart.
    - exists step. split; [done|]. by destruct o.
    - exists 1. split; [lia|]. by apply errors_on_step_empty. }
  split; [done|]. destruct Hex as (step & Hs & H).
  destruct (errors st !! fld_newsletter) eqn:He; [|done].
  exfalso. assert (fld_newsletter ∈ step_fields step) as Hin by (apply H; eauto).
  assert (step = 1 ∨ step = 2 ∨ step = 3) as [-> | [-> | ->]] by lia;
    simpl in Hin; rewrite ?elem_of_cons, elem_of_nil in Hin;
    intuition discriminate.
Qed.

Lemma reachable_errors_one_step_witness :
  reachable sample_name_typed
  ∧ errors sample_name_typed !! fld_newsletter = None.
Proof.
  split; [apply reachable_sample_name_typed|].
  apply reachable_errors_one_step, reachable_sample_name_typed.
Defined.

(** ** The step on screen *)

Lemma steps_at_range (n : Z) :
  1 <= n <= 3 →
  ∃ cfg, steps_at (n - 1) = Some cfg ∧ number cfg = n
         ∧ ∀ f, f ∈ step_fields n → f ∈ component_fields (component cfg).
Proof.
  intros Hn. assert (n = 1 ∨ n = 2 ∨ n = 3) as [-> | [-> | ->]] by lia;
    (eexists; split; [reflexivity|]; split; [reflexivity|]);
    simpl; intros f; rewrite !elem_of_cons; tauto.
Qed.

(** In every state that the operations of the hook reach, [steps] has an
    entry for the current step, so the render finds a component to show; the
    entry carries the number of the current step, and the component has an
    input for every field that [validateStep] checks at that step. *)
Theorem CurrentStepComponent_defined (st : Hook) :
  reachable st →
  ∃ cfg, steps_at (currentStep st - 1) = Some cfg
         ∧ CurrentStepComponent st = Some (component cfg)
         ∧ number cfg = currentStep st
         ∧ ∀ f, f ∈ step_fields (currentStep st)
                → f ∈ component_fields (component cfg).
Proof.
  intros Hr. apply run_op_step_range in Hr.
  destruct (steps_at_range _ Hr) as (cfg & H1 & H2 & H3).
  exists cfg. unfold CurrentStepComponent. by rewrite H1.
Qed.

Lemma CurrentStepComponent_defined_witness :
  reachable sample_name_typed
  ∧ CurrentStepComponent sample_name_typed = Some PersonalInfoStep.
Proof.
  split; [apply reachable_sample_name_typed|].
  destruct (CurrentStepComponent_defined sample_name_typed
              reachable_sample_name_typed) as (cfg & H1 & H2 & _).
  reflexivity.
Defined.

(** ** Opening, closing and submitting *)

(** Opening the modal always starts from the initial form, whatever was
    there, and a modal closed straight after it was opened closes without
    asking for confirmation. *)
Theorem open_then_close (confirm : string -> bool) (m : Modal) :
  handleOpenModal m = mkModal true initialHook
  ∧ handleCloseModal confirm (handleOpenModal m) = mkModal false initialHook.
Proof. done. Qed.

(** [handleSubmit] closes the modal and resets the form exactly when the
    theme passes its validator and the promise fulfils, with the welcome
    alert; in every other case the modal stays as it was, the entries and
    the step are kept, and the failure alert is shown, also when the only
    failure is the validation of step 3. Exactly one alert is shown. *)
Theorem handleSubmit_outcome (o : settled) (m : Modal) :
  (if (validateStep 3 (form m)).2
      && match o with Fulfilled => true | Rejected => false end
   then handleSubmit o m = (mkModal false initialHook, [AlertWelcome])
   else (handleSubmit o m).2 = [AlertWentWrong]
        ∧ isOpen (handleSubmit o m).1 = isOpen m
        ∧ formData (form (handleSubmit o m).1) = formData (form m)
        ∧ currentStep (form (handleSubmit o m).1) = currentStep (form m)
        ∧ errors (form (handleSubmit o m).1) = errors (validateStep 3 (form m)).1)
  ∧ handleSubmit o m
    = (if (handleSubmit_start m).1.2
       then handleSubmit_settle o (handleSubmit_start m).1.1
       else ((handleSubmit_start m).1.1, (handleSubmit_start m).2)).
Proof.
  unfold handleSubmit, handleSubmit_start, handleSubmit_settle, submitForm,
    submit_start.
  destruct (validateStep 3 (form m)) as [st1 ok] eqn:Hv.
  unfold validateStep in Hv. injection Hv as <- _.
  destruct ok, o; simpl; done.
Qed.

(** ** Invariants of the page *)

Lemma ui_reachable_inv (P : Modal → Prop) :
  P initialModal →
  (∀ m e m', P m → ui_step m e = Some m' → P m') →
  ∀ m, ui_reachable m → P m.
Proof.
  intros Hinit Hstep m [evs Hrun].
  assert (∀ m0, P m0 → ui_run evs m0 = Some m → P m) as H; [|by eapply H].
  clear Hrun. induction evs as [|e evs IH]; intros m0 H0; simpl.
  - by intros [= <-].
  - destruct (ui_step m0 e) as [m1|] eqn:He; [|done].
    apply IH. by eapply Hstep.
Qed.

Lemma ui_invariant_initial (b : bool) : ui_invariant (mkModal b initialHook).
Proof.
  split; [simpl; lia|]. split; [intros step f Hs; simpl in Hs; lia|].
  split; [by apply errors_on_step_empty | done].
Qed.

Lemma ui_invariant_close (confirm : string -> bool) (m : Modal) :
  ui_invariant m → ui_invariant (handleCloseModal confirm m).
Proof.
  intros H. unfold handleCloseModal.
  destruct (_ && _); [done | apply ui_invariant_initial].
Qed.

Lemma ui_invariant_next (m : Modal) :
  ui_invariant m → isOpen m = true → currentStep (form m) < 3 →
  ui_invariant (mkModal (isOpen m) (goToNextStep (form m))).
Proof.
  intros (Hr & Hv & He & _) Ho Hlt. unfold ui_invariant. simpl.
  destruct (goToNextStep_cases (form m)) as [[-> Hok] | [-> _]]; simpl.
  - split; [lia|]. split; [|split; [by apply errors_on_step_empty | congruence]].
    intros step f Hs Hf. simpl in *.
    destruct (decide (step = currentStep (form m))) as [->|Hne]; [by apply Hok|].
    apply (Hv step f); [lia | done].
  - split; [done|]. split; [done|].
    split; [apply validateStep_errors_on_step | congruence].
Qed.

Lemma ui_invariant_previous (m : Modal) :
  ui_invariant m → isOpen m = true →
  ui_invariant (mkModal (isOpen m) (goToPreviousStep (form m))).
Proof.
  intros (Hr & Hv & He & _) Ho. unfold ui_invariant. simpl.
  split; [lia|]. split; [|split; [by apply errors_on_step_empty | congruence]].
  intros step f Hs Hf. simpl in *. apply (Hv step f); [lia | done].
Qed.

Lemma component_field_not_earlier (n step : Z) (c : StepComponent) (f g : Field) :
  1 <= n <= 3 → component <$> steps_at (n - 1) = Some c →
  f ∈ component_fields c → 1 <= step < n → g ∈ step_fields step → g ≠ f.
Proof.
  intros Hn Hc Hf Hs Hg.
  assert (n = 1 ∨ n = 2 ∨ n = 3) as [-> | [-> | ->]] by lia;
    simpl in Hc; injection Hc as <-; simpl in Hf;
    [lia | assert (step = 1) as -> by lia
         | assert (step = 1 ∨ step = 2) as [-> | ->] by lia];
    simpl in Hg; rewrite ?elem_of_cons, elem_of_nil in Hf, Hg;
    intuition congruence.
Qed.

Lemma ui_invariant_input (m : Modal) (c : StepComponent) (f : Field)
    (v : field_type f) :
  ui_invariant m → isOpen m = true →
  CurrentStepComponent (form m) = Some c → f ∈ component_fields c →
  ui_invariant (mkModal (isOpen m) (updateField f v (form m))).
Proof.
  intros (Hr & Hv & He & _) Ho Hc Hf.
  destruct (updateField_frame f v (form m)) as (Hs & _ & Hd & Hk).
  unfold ui_invariant. simpl. rewrite Hs.
  split; [done|]. split; [|split; [|congruence]].
  - intros step g Hstep Hg. rewrite Hs in Hstep. rewrite Hd.
    rewrite validate_set_field_ne; [by apply (Hv step)|].
    by apply (component_field_not_earlier (currentStep (form m)) step c).
  - intros g Hg. apply He. by apply Hk.
Qed.

Lemma ui_invariant_submit_start (m : Modal) :
  ui_invariant m → isOpen m = true → currentStep (form m) = 3 →
  ui_invariant (handleSubmit_start m).1.1.
Proof.
  intros (Hr & Hv & He & _) Ho H3. unfold handleSubmit_start.
  pose proof (submit_start_cases (form m)) as Hc.
  pose proof (submit_start_awaiting (form m)) as Ha.
  destruct (submit_start (form m)) as [[st1 awaiting] tr]. simpl in *.
  assert (ui_invariant (mkModal (isOpen m) st1)) as Hinv.
  { destruct Hc as [-> | [-> _]]; unfold ui_invariant; simpl.
    - split; [done|]. split; [done|]. rewrite H3.
      split; [apply validateStep_errors_on_step | congruence].
    - split; [done|]. split; [done|].
      split; [by apply errors_on_step_empty | congruence]. }
  by destruct awaiting.
Qed.

Lemma ui_invariant_settle (o : settled) (m : Modal) :
  ui_invariant m → ui_invariant (handleSubmit_settle o m).1.
Proof.
  intros (Hr & Hv & He & Hc). unfold handleSubmit_settle.
  destruct o; simpl; [apply ui_invariant_initial|].
  unfold ui_invariant. simpl. split; [done|]. split; [done|]. split; [done|].
  intros Ho. by rewrite (Hc Ho).
Qed.

Lemma ui_step_invariant (m : Modal) (e : ui_event) (m' : Modal) :
  ui_invariant m → ui_step m e = Some m' → ui_invariant m'.
Proof.
  intros Hinv. destruct e; simpl.
  - intros [= <-]. apply ui_invariant_initial.
  - destruct (isOpen m); [|done]. intros [= <-]. by apply ui_invariant_close.
  - intros [= <-]. unfold handleKeyDown.
    destruct (isOpen m) eqn:Ho; simpl; [|done].
    destruct k, inInput; simpl; try done; try (by apply ui_invariant_close).
    + destruct (currentStep (form m) <? 3) eqn:Hlt; [|done].
      try rewrite <- Ho. apply ui_invariant_next; [done | done | lia].
    + destruct (currentStep (form m) >? 1); [|done].
      try rewrite <- Ho. by apply ui_invariant_previous.
  - destruct (CurrentStepComponent (form m)) as [c|] eqn:Hc; [|done].
    destruct (isOpen m) eqn:Ho; [|done]. simpl.
    case_bool_decide as Hf; [|done]. simpl.
    destruct (input_value f v); [|done]. intros [= <-].
    try rewrite <- Ho. by eapply ui_invariant_input.
  - destruct (isOpen m) eqn:Ho; [|done]. simpl.
    destruct (negb _); [|done]. intros [= <-].
    try rewrite <- Ho. by apply ui_invariant_previous.
  - destruct (isOpen m) eqn:Ho; [|done]. simpl.
    change (Z.of_nat 3) with 3.
    destruct (currentStep (form m) <? 3) eqn:Hlt; [|done]. intros [= <-].
    try rewrite <- Ho. apply ui_invariant_next; [done | done | lia].
  - destruct (isOpen m) eqn:Ho; [|done]. simpl.
    change (Z.of_nat 3) with 3.
    destruct (currentStep (form m) <? 3) eqn:Hlt; [done|]. simpl.
    destruct (negb _); [|done]. intros [= <-].
    apply ui_invariant_submit_start; [done | done |].
    destruct Hinv as [? _]. lia.
  - intros [= <-]. by apply ui_invariant_settle.
Qed.

Lemma ui_reachable_invariant (m : Modal) : ui_reachable m → ui_invariant m.
Proof.
  apply ui_reachable_inv; [apply ui_invariant_initial|].
  intros m0 e m1. apply ui_step_invariant.
Qed.


Lemma ui_reachable_ready : ui_reachable sample_ready.
Proof. exists (sample_session ++ [UiInput fld_theme Dark]). by vm_compute. Qed.



Lemma handleSubmit_start_form (m : Modal) :
  form (handleSubmit_start m).1.1 = (submit_start (form m)).1.1.
Proof.
  unfold handleSubmit_start.
  destruct (submit_start (form m)) as [[st1 awaiting] tr]. by destruct awaiting.
Qed.

(** When a click on the submit button starts a submission, every field of
    the form passes its validator, although [submitForm] itself validates
    step 3 only. *)
Theorem ui_submission_all_valid (m m' : Modal) (f : Field) :
  ui_reachable m →
  ui_step m UiSubmit = Some m' →
  isSubmitting (form m') = true →
  validate_field f (formData (form m')) = None
  ∧ formData (form m') = formData (form m)
  ∧ currentStep (form m') = 3.
Proof.
  intros Hr Hstep Hsub.
  apply ui_reachable_invariant in Hr as (Hrange & Hv & _).
  simpl in Hstep. destruct (isOpen m) eqn:Ho; [|done]. simpl in Hstep.
  change (Z.of_nat 3) with 3 in Hstep.
  destruct (currentStep (form m) <? 3) eqn:Hlt; [done|].
  apply Z.ltb_ge in Hlt. simpl in Hstep.
  destruct (isSubmitting (form m)) eqn:Hidle; [done|].
  simpl in Hstep. injection Hstep as <-.
  rewrite handleSubmit_start_form in *.
  destruct (submit_start_cases (form m)) as [Hc | (Hc & _ & Hok)];
    rewrite Hc in *; simpl in *.
  - congruence.
  - split; [|split; [done | lia]].
    destruct f;
      try (apply Hok; simpl; rewrite !elem_of_cons; tauto);
      try (apply (Hv 1); [lia | simpl; rewrite !elem_of_cons; tauto]);
      try (apply (Hv 2); [lia | simpl; rewrite !elem_of_cons; tauto]).
    done.
Qed.

Lemma ui_submission_all_valid_witness :
  ui_reachable sample_ready
  ∧ ui_step sample_ready UiSubmit = Some (handleSubmit_start sample_ready).1.1
  ∧ isSubmitting (form (handleSubmit_start sample_ready).1.1) = true
  ∧ validate_field fld_email (formData (form (handleSubmit_start sample_ready).1.1))
    = None.
Proof.
  split; [apply ui_reachable_ready|]. split; [reflexivity|].
  split; [reflexivity|].
  apply (ui_submission_all_valid sample_ready _ fld_email ui_reachable_ready
           eq_refl eq_refl).
Defined.

(** In every state the user can bring the page into, each key of the error
    object belongs to the step on screen, whose component has an input for
    it: no message is ever recorded for a field that is not shown. *)
Theorem ui_errors_on_screen (m : Modal) (f : Field) :
  ui_reachable m →
  is_Some (errors (form m) !! f) →
  f ∈ step_fields (currentStep (form m))
  ∧ ∃ c, CurrentStepComponent (form m) = Some c ∧ f ∈ component_fields c.
Proof.
  intros Hr Hf. apply ui_reachable_invariant in Hr as (Hrange & _ & He & _).
  split; [by apply He|].
  destruct (steps_at_range _ Hrange) as (cfg & H1 & _ & H3).
  exists (component cfg). unfold CurrentStepComponent. rewrite H1.
  split; [done|]. by apply H3, He.
Qed.

Lemma ui_reachable_step1_failed :
  ui_reachable (mkModal true sample_step1_failed).
Proof. exists [UiTrigger; UiNext]. by vm_compute. Qed.

Lemma ui_errors_on_screen_witness :
  ui_reachable (mkModal true sample_step1_failed)
  ∧ is_Some (errors sample_step1_failed !! fld_email)
  ∧ fld_email ∈ step_fields (currentStep sample_step1_failed).
Proof.
  assert (is_Some (errors sample_step1_failed !! fld_email)) as Hs
    by (by eexists).
  split; [apply ui_reachable_step1_failed|]. split; [exact Hs|].
  apply (ui_errors_on_screen (mkModal true sample_step1_failed) fld_email
           ui_reachable_step1_failed Hs).
Defined.

(** Whenever the modal is closed the hook is in its initial state: nothing
    typed, no error, step 1, not submitting. No entry survives a close,
    whichever way the modal was closed. *)
Theorem ui_closed_initial (m : Modal) :
  ui_reachable m → isOpen m = false → form m = initialHook.
Proof.
  intros Hr. apply ui_reachable_invariant in Hr as (_ & _ & _ & Hc). exact Hc.
Qed.

Lemma ui_reachable_closed : ui_reachable (mkModal false initialHook).
Proof. exists sample_closing_session. by vm_compute. Qed.

Lemma ui_closed_initial_witness :
  ui_reachable (mkModal false initialHook)
  ∧ isOpen (mkModal false initialHook) = false
  ∧ form (mkModal false initialHook) = initialHook.
Proof.
  split; [apply ui_reachable_closed|]. split; [reflexivity|].
  apply (ui_closed_initial (mkModal false initialHook) ui_reachable_closed).
  reflexivity.
Defined.
